(** * dog: the board-game engine of [dog.py]

    A shallow embedding of the game-state engine ([Player], [Place], [Game],
    the effect catalogue, [BOARD] and the driver loop) and the properties of
    its movement arithmetic, its elimination bookkeeping and its turn step.

    Python objects are mutable and shared: a [Player] sits at once in
    [Game.players], in [Game.totalPlayers] and in the sets a turn passes
    around.  The embedding keeps one store of player objects ([heap]) and
    lets every container hold references.  [newGame] gives each player a
    distinct [id] and [Player.__eq__]/[__hash__] look at the [id] alone, so a
    reference is the [id]. *)

From stdpp Require Import base tactics option list gmap strings pretty.
From Stdlib Require Import ZArith Lia.

Local Open Scope Z_scope.

(** ** Exceptions, and the state-and-exception monad of the engine *)

Inductive exn : Type :=
  | IndexError        (* list index out of range, pop index out of range *)
  | ValueError        (* list.index(x): x not in list *)
  | ZeroDivisionError (* integer modulo by zero *)
  | AttributeError    (* raised by executeEffect / executePersistentEffect *)
  | DanglingReference (* a reference with no object: no Python run has it *)
  | OutOfFuel.        (* the bound on the model's while loops was reached *)

(** A Python call either returns or raises; both leave a (mutated) state. *)
Inductive Res (S A : Type) : Type :=
  | Ok (a : A) (s : S)
  | Raise (e : exn) (s : S).
Arguments Ok {S A} a s.
Arguments Raise {S A} e s.

Definition M (S A : Type) : Type := S → Res S A.

Definition ret {S A} (a : A) : M S A := λ s, Ok a s.
Definition bind {S A B} (m : M S A) (k : A → M S B) : M S B :=
  λ s, match m s with
       | Ok a s' => k a s'
       | Raise e s' => Raise e s'
       end.
Definition raise {S A} (e : exn) : M S A := λ s, Raise e s.
Definition gets {S A} (f : S → A) : M S A := λ s, Ok (f s) s.
Definition modify {S} (f : S → S) : M S unit := λ s, Ok tt (f s).

(** The state a call leaves behind, whether it returned or raised. *)
Definition state_of {S A} (r : Res S A) : S :=
  match r with Ok _ s => s | Raise _ s => s end.

Declare Scope py_scope.
Delimit Scope py_scope with py.
Notation "x <- m ;; k" := (bind m (λ x, k))
  (at level 100, m at next level, right associativity) : py_scope.
Notation "m ;;; k" := (bind m (λ _, k))
  (at level 100, right associativity) : py_scope.
Local Open Scope py_scope.

(** [for x in l: body x], with no [break]. *)
Fixpoint for_each {S A} (l : list A) (body : A → M S unit) : M S unit :=
  match l with
  | [] => ret tt
  | x :: l' => body x ;;; for_each l' body
  end.

(** [[f(x) for x in l]]. *)
Fixpoint comprehension {S A B} (l : list A) (f : A → M S B) : M S (list B) :=
  match l with
  | [] => ret []
  | x :: l' => y <- f x ;; ys <- comprehension l' f ;; ret (y :: ys)
  end.

(** [[x for x in l if c(x)]]. *)
Fixpoint comprehension_if {S A} (l : list A) (c : A → M S bool) : M S (list A) :=
  match l with
  | [] => ret []
  | x :: l' =>
      b <- c x ;; ys <- comprehension_if l' c ;; ret (if b then x :: ys else ys)
  end.

(** ** Python lists *)

(** [l[i]]: a negative index counts from the end; [None] is IndexError. *)
Definition py_getitem {A} (l : list A) (i : Z) : option A :=
  let n := Z.of_nat (length l) in
  if decide (0 ≤ i) then l !! Z.to_nat i
  else if decide (- n ≤ i) then l !! Z.to_nat (n + i)
  else None.

(** [l.pop(i)]: the list without its [i]-th element; [None] is IndexError. *)
Definition py_pop {A} (l : list A) (i : Z) : option (list A) :=
  let n := Z.of_nat (length l) in
  let j := if decide (0 ≤ i) then i else n + i in
  if decide (0 ≤ j < n) then Some (delete (Z.to_nat j) l) else None.

(** [l.index(x)]: the first position of [x]; [None] is ValueError. *)
Fixpoint py_index (l : list Z) (x : Z) : option Z :=
  match l with
  | [] => None
  | y :: l' => if decide (x = y) then Some 0 else Z.succ <$> py_index l' x
  end.

(** [a % b] for [b ≠ 0]: Python's result has the sign of [b], as [Z.modulo]. *)
Definition py_mod {S} (a b : Z) : M S Z :=
  if decide (b = 0) then raise ZeroDivisionError else ret (a `mod` b).

(** [set(l)]: the elements of [l], each once, in the order first met. *)
Fixpoint py_set (l : list Z) : list Z :=
  match l with
  | [] => []
  | x :: l' => x :: filter (λ y, y ≠ x) (py_set l')
  end.

(** [s.add(x)]. *)
Definition py_set_add (s : list Z) (x : Z) : list Z :=
  if decide (x ∈ s) then s else s ++ [x].

(** [str(b)] of a bool, as an f-string prints it. *)
Definition str_bool (b : bool) : string := if b then "True" else "False".

(** ** The data model *)

Module Player.
Record t : Type := mk {
  id : Z;
  name : string;
  currentPlace : Z;
  totalPlaces : Z;
  turnsToSkip : Z;
}.
End Player.

Module Place.
Record t (EffectFunc PersistentEffectFunc : Type) : Type := mk {
  id : Z;
  effect : option EffectFunc;
  persistentEffect : option PersistentEffectFunc;
  message : option string;
}.
Arguments mk {_ _} _ _ _ _.
Arguments id {_ _} _.
Arguments effect {_ _} _.
Arguments persistentEffect {_ _} _.
Arguments message {_ _} _.
End Place.

(** [EffectResult = Union[List[Player], Player]]: the players that were
    moved, or a single player, the winner. *)
Inductive EffectResult : Type :=
  | Moved (players : list Z)
  | Winner (player : Z).

(** [PersistentEffectResult = Tuple[List[Player], bool]]. *)
Definition PersistentEffectResult : Type := list Z * bool.

(** What [doTurn] returns: a [Player] (the winner), [False] (everyone lost)
    or [None] (the game continues). *)
Inductive TurnResult : Type :=
  | TurnWinner (player : Z)
  | TurnFalse
  | TurnNone.

(** ** The engine

    The engine treats effects as opaque callables.  [EffectFunc] and
    [PersistentEffectFunc] are the types of what a place may hold, and
    [call_effect] and [call_persistent] say what calling one does; the
    catalogue of [dog.py] instantiates them further down.

    [random.Random] is not part of the repository: [randint] and
    [getrandbits] are the two methods of it the engine calls, [Random] is
    its constructor.  The iteration order of a Python set is not fixed by
    the language: [set_iter] gives the order in which a set is walked. *)

Section Engine.
Context {RNG : Type}.
Context (Random : Z → RNG).
Context (randint : Z → Z → RNG → Z * RNG).
Context (getrandbits : Z → RNG → Z * RNG).
Context (set_iter : list Z → list Z).
Context {EffectFunc PersistentEffectFunc : Type}.

Abbreviation Place := (Place.t EffectFunc PersistentEffectFunc).

Record Game : Type := mkGame {
  rng : RNG;
  currentPlayerOffset : Z;
  currentTurn : Z;
  totalPlayers : list Z;
  players : list Z;
  places : list Place;
  totalTurns : Z;
  (* the Player objects the references above point to *)
  heap : gmap Z Player.t;
  (* the messages handed to logging.info, oldest first; the handler
     prefixes each with the wall-clock time, which is not modelled *)
  log : list string;
}.

Definition set_rng (r : RNG) (g : Game) : Game :=
  mkGame r (currentPlayerOffset g) (currentTurn g) (totalPlayers g)
    (players g) (places g) (totalTurns g) (heap g) (log g).
Definition set_currentPlayerOffset (o : Z) (g : Game) : Game :=
  mkGame (rng g) o (currentTurn g) (totalPlayers g)
    (players g) (places g) (totalTurns g) (heap g) (log g).
Definition set_players (l : list Z) (g : Game) : Game :=
  mkGame (rng g) (currentPlayerOffset g) (currentTurn g) (totalPlayers g)
    l (places g) (totalTurns g) (heap g) (log g).
Definition set_totalTurns (n : Z) (g : Game) : Game :=
  mkGame (rng g) (currentPlayerOffset g) (currentTurn g) (totalPlayers g)
    (players g) (places g) n (heap g) (log g).
Definition set_heap (h : gmap Z Player.t) (g : Game) : Game :=
  mkGame (rng g) (currentPlayerOffset g) (currentTurn g) (totalPlayers g)
    (players g) (places g) (totalTurns g) h (log g).
Definition set_log (l : list string) (g : Game) : Game :=
  mkGame (rng g) (currentPlayerOffset g) (currentTurn g) (totalPlayers g)
    (players g) (places g) (totalTurns g) (heap g) l.

Abbreviation Py := (M Game).

(** [logging.info(msg)]. *)
Definition logging_info (msg : string) : Py unit :=
  modify (λ g, set_log (log g ++ [msg]) g).

(** Reading and writing the object behind a reference. *)
Definition deref (self : Z) : Py Player.t :=
  λ g, match heap g !! self with
       | Some p => Ok p g
       | None => Raise DanglingReference g
       end.
Definition store (self : Z) (p : Player.t) : Py unit :=
  modify (λ g, set_heap (<[self := p]> (heap g)) g).

Definition of_option {A} (e : exn) (o : option A) : Py A :=
  match o with Some a => ret a | None => raise e end.

(** *** Player *)

(** [Player.getCurrentPlace]: [self.game.places[self.currentPlace]]. *)
Definition getCurrentPlace (self : Z) : Py Place :=
  p <- deref self ;;
  ps <- gets places ;;
  of_option IndexError (py_getitem ps (Player.currentPlace p)).

(** [Player.showPlayer]. *)
Definition showPlayer (self : Z) : Py string :=
  p <- deref self ;;
  ret (Player.name p +:+ " (" +:+ pretty (Player.id p) +:+ ")").

(** [Player.move]. *)
Definition move (self : Z) (step : Z) : Py unit :=
  step <-
    (if step >? 0 then
       (* Deal with overflows *)
       p <- deref self ;;
       n <- gets (λ g, Z.of_nat (length (places g))) ;;
       let step :=
         if Player.currentPlace p + step >=? n
         then (n - 1) - Player.currentPlace p else step in
       store self (Player.mk (Player.id p) (Player.name p)
                     (Player.currentPlace p + step)
                     (Player.totalPlaces p + step)
                     (Player.turnsToSkip p)) ;;;
       ret step
     else if step <? 0 then
       (* Deal with underflows. Remember step is negative *)
       p <- deref self ;;
       let step :=
         if Player.currentPlace p + step <? 0
         then Player.currentPlace p else step in
       store self (Player.mk (Player.id p) (Player.name p)
                     (Player.currentPlace p + step)
                     (Player.totalPlaces p + (- step))
                     (Player.turnsToSkip p)) ;;;
       ret step
     else ret step) ;;
  (* Logging *)
  currentPlace <- getCurrentPlace self ;;
  p <- deref self ;;
  let logMessage :=
    Player.name p +:+ " (" +:+ pretty (Player.id p) +:+ ") moved "
      +:+ pretty step +:+ " to place " +:+ pretty (Place.id currentPlace) in
  let logMessage :=
    match Place.message currentPlace with
    | Some m => logMessage +:+ ", message: " +:+ m
    | None => logMessage
    end in
  logging_info logMessage.

(** [Player.stats]: the values of the dict, in the order of its keys
    [id], [name], [current_place], [total_places]. *)
Definition stats (self : Z) : Py (Z * string * Z * Z) :=
  p <- deref self ;;
  ret (Player.id p, Player.name p, Player.currentPlace p, Player.totalPlaces p).

(** What calling an effect does.  An effect gets the place and the
    player, a persistent effect also the roll; both run against the whole
    game, which they reach through [place.game]. *)
Context (call_effect : EffectFunc → Place → Z → Py EffectResult).
Context (call_persistent :
           PersistentEffectFunc → Place → Z → Z → Py PersistentEffectResult).
(** [json.dumps] of the list of [stats()] dicts. *)
Context (json_dumps : list (Z * string * Z * Z) → string).

(** *** Place *)

(** [Place.__eq__]: by [id]. *)
Definition Place_eq (a b : Place) : bool := bool_decide (Place.id b = Place.id a).

(** [Place.getPlayersInPlace]. *)
Definition getPlayersInPlace (self : Place) : Py (list Z) :=
  ps <- gets players ;;
  comprehension_if ps (λ p, q <- getCurrentPlace p ;; ret (Place_eq q self)).

Definition hasEffect (self : Place) : bool :=
  match Place.effect self with Some _ => true | None => false end.

Definition hasPersistentEffect (self : Place) : bool :=
  match Place.persistentEffect self with Some _ => true | None => false end.

Definition executeEffect (self : Place) (player : Z) : Py EffectResult :=
  match Place.effect self with
  | None => raise AttributeError
  | Some f => call_effect f self player
  end.

Definition executePersistentEffect (self : Place) (player roll : Z)
  : Py PersistentEffectResult :=
  match Place.persistentEffect self with
  | None => raise AttributeError
  | Some f => call_persistent f self player roll
  end.

(** *** Game *)

Definition _nextPlayerOffset : Py Z :=
  o <- gets currentPlayerOffset ;;
  n <- gets (λ g, Z.of_nat (length (players g))) ;;
  py_mod (o + 1) n.

Definition _lastPlayerOffset : Py Z :=
  o <- gets currentPlayerOffset ;;
  n <- gets (λ g, Z.of_nat (length (players g))) ;;
  py_mod (o - 1) n.

Definition _advanceCurrentPlayer : Py unit :=
  o <- _nextPlayerOffset ;; modify (set_currentPlayerOffset o).

Definition _rewindCurrentPlayer : Py unit :=
  o <- _lastPlayerOffset ;; modify (set_currentPlayerOffset o).

(** [self.players.pop(i)]. *)
Definition players_pop (i : Z) : Py unit :=
  ps <- gets players ;;
  ps' <- of_option IndexError (py_pop ps i) ;;
  modify (set_players ps').

(** [Game.losePlayer]. *)
Definition losePlayer (player : Z) : Py unit :=
  ps <- gets players ;;
  o <- gets currentPlayerOffset ;;
  cur <- of_option IndexError (py_getitem ps o) ;;
  (* If the current player is the one we are losing, we make it as if we
     are still in the last player's turn, and we can pop the next player *)
  if bool_decide (player = cur) then
    _rewindCurrentPlayer ;;;
    i <- _nextPlayerOffset ;;
    players_pop i
  (* Otherwise, we just linear search, and fix currentPlayerOffset if we
     need to *)
  else
    deletedOffset <- of_option ValueError (py_index ps player) ;;
    o <- gets currentPlayerOffset ;;
    (if o >? deletedOffset then _rewindCurrentPlayer else ret tt) ;;;
    players_pop deletedOffset.

Definition getPlayers : Py (list Z) := gets players.

Definition getCurrentTurnPlayer : Py Z :=
  ps <- gets players ;;
  o <- gets currentPlayerOffset ;;
  of_option IndexError (py_getitem ps o).

(** [[p.getCurrentPlace() for p in self.players
      if p.getCurrentPlace().hasPersistentEffect()]]. *)
Fixpoint persistentEffectPlaces_of (ps : list Z) : Py (list Place) :=
  match ps with
  | [] => ret []
  | p :: ps' =>
      c <- getCurrentPlace p ;;
      if hasPersistentEffect c then
        q <- getCurrentPlace p ;;
        qs <- persistentEffectPlaces_of ps' ;;
        ret (q :: qs)
      else persistentEffectPlaces_of ps'
  end.

Definition getCurrentPersistentEffectPlaces : Py (list Place) :=
  ps <- gets players ;; persistentEffectPlaces_of ps.

Definition everyoneLost : Py bool :=
  gets (λ g, bool_decide (Z.of_nat (length (players g)) = 0)).

Definition coin (player : Z) : Py bool :=
  r <- gets rng ;;
  let (bits, r') := getrandbits 1 r in
  modify (set_rng r') ;;;
  let flip := negb (bool_decide (bits = 0)) in
  who <- showPlayer player ;;
  logging_info ("coin flip by " +:+ who +:+ ": " +:+ str_bool flip) ;;;
  ret flip.

Definition d6 (player : Z) : Py Z :=
  r <- gets rng ;;
  let (roll, r') := randint 1 6 r in
  modify (set_rng r') ;;;
  who <- showPlayer player ;;
  logging_info ("die roll by " +:+ who +:+ ": " +:+ pretty roll) ;;;
  ret roll.

(** *** The turn *)

(** The [for place in currentPersistentEffectsPlaces] loop of [doTurn],
    with its [break].  The two accumulators are the local variables
    [movedPlayers] and [persistentEffectActivated]. *)
Fixpoint persistent_loop (ps : list Place) (currentPlayer roll : Z)
    (movedPlayers : list Z) (persistentEffectActivated : bool)
  : Py (list Z * bool) :=
  match ps with
  | [] => ret (movedPlayers, persistentEffectActivated)
  | place :: ps' =>
      r <- executePersistentEffect place currentPlayer roll ;;
      let (possibleMovedPlayers, persistentEffectActivated) := r in
      (* If a persistent effect activated, many may have moved (and
         activated effects), and we may not have moved at all. We let the
         function tell us who moved *)
      if persistentEffectActivated
      then ret (py_set possibleMovedPlayers, persistentEffectActivated)
      else persistent_loop ps' currentPlayer roll movedPlayers
             persistentEffectActivated
  end.

(** The [for mp in movedPlayers] loop inside the main loop: [inl w] is
    the [return moved] of a detected winner, [inr s] the set
    [newMovedPlayers] once the loop is through. *)
Fixpoint moved_loop (mps : list Z) (newMovedPlayers : list Z)
  : Py (Z + list Z) :=
  match mps with
  | [] => ret (inr newMovedPlayers)
  | mp :: mps' =>
      place <- getCurrentPlace mp ;;
      if hasEffect place then
        moved <- executeEffect place mp ;;
        match moved with
        (* If a winner was detected, we just return it here *)
        | Winner w => ret (inl w)
        | Moved l => moved_loop mps' (foldl py_set_add newMovedPlayers l)
        end
      else moved_loop mps' newMovedPlayers
  end.

(** The main loop, [while len(movedPlayers) != 0].  Nothing bounds the
    number of rounds in the source; [fuel] bounds it here. *)
Fixpoint main_loop (fuel : nat) (movedPlayers : list Z) : Py (option Z) :=
  if bool_decide (Z.of_nat (length movedPlayers) ≠ 0) then
    match fuel with
    | O => raise OutOfFuel
    | S fuel' =>
        r <- moved_loop (set_iter movedPlayers) [] ;;
        match r with
        | inl w => ret (Some w)
        | inr newMovedPlayers => main_loop fuel' newMovedPlayers
        end
    end
  else ret None.

(** The part of [doTurn] from the roll on: the persistent effects, and
    the ordinary move when none of them activated.  It returns
    [movedPlayers] as the main loop receives it. *)
Definition roll_and_move (currentPlayer : Z) : Py (list Z) :=
  roll <- d6 currentPlayer ;;
  (* To start with, let's assume only the first player will move
     (activating an effect) and no persistent effect was activated *)
  let movedPlayers := py_set [currentPlayer] in
  let persistentEffectActivated := false in
  currentPersistentEffectsPlaces <- getCurrentPersistentEffectPlaces ;;
  r <- persistent_loop currentPersistentEffectsPlaces currentPlayer roll
         movedPlayers persistentEffectActivated ;;
  let (movedPlayers, persistentEffectActivated) := r in
  (if negb persistentEffectActivated then move currentPlayer roll
   else ret tt) ;;;
  ret movedPlayers.

(** [Game.doTurn]. *)
Definition doTurn (fuel : nat) : Py TurnResult :=
  modify (λ g, set_totalTurns (totalTurns g + 1) g) ;;;
  n <- gets totalTurns ;;
  logging_info ("turn " +:+ pretty n) ;;;
  currentPlayer <- getCurrentTurnPlayer ;;
  p <- deref currentPlayer ;;
  (* Deal with skipping turns *)
  if Player.turnsToSkip p >? 0 then
    store currentPlayer
      (Player.mk (Player.id p) (Player.name p) (Player.currentPlace p)
         (Player.totalPlaces p) (Player.turnsToSkip p - 1)) ;;;
    _advanceCurrentPlayer ;;;
    ret TurnNone
  else
    movedPlayers <- roll_and_move currentPlayer ;;
    w <- main_loop fuel movedPlayers ;;
    match w with
    | Some winner => ret (TurnWinner winner)
    | None =>
        (* Finally, check if there was no movement because everyone lost *)
        lost <- everyoneLost ;;
        if lost then ret TurnFalse
        else _advanceCurrentPlayer ;;; ret TurnNone
    end.

(** *** Setting up and driving a game *)

Fixpoint enumerate {A} (i : Z) (l : list A) : list (Z * A) :=
  match l with
  | [] => []
  | x :: l' => (i, x) :: enumerate (i + 1) l'
  end.

(** [newGame].  The log is not a field of the Python [Game]; a new game
    starts on the log [log0] of what was printed before. *)
Definition newGame (log0 : list string) (seed : Z) (playerNames : list string)
    (board : list (option EffectFunc * option PersistentEffectFunc * option string))
  : Game :=
  let players :=
    (λ '(id, name), Player.mk id name 0 0 0) <$> enumerate 0 playerNames in
  let places :=
    (λ '(id, (effect, persistentEffect, msg)),
       Place.mk id effect persistentEffect msg) <$> enumerate 0 board in
  {| rng := Random seed;
     currentPlayerOffset := 0;
     currentTurn := 0;
     totalPlayers := py_set (Player.id <$> players);
     players := Player.id <$> players;
     places := places;
     totalTurns := 0;
     heap := list_to_map ((λ p, (Player.id p, p)) <$> players);
     log := log0 |}.

(** The [while True] loop of the script; [turns] bounds the number of
    turns and [fuel] the main loop of each. *)
Fixpoint play (turns fuel : nat) : Py unit :=
  match turns with
  | O => raise OutOfFuel
  | S turns' =>
      result <- doTurn fuel ;;
      match result with
      | TurnWinner w =>
          who <- showPlayer w ;; logging_info ("winner: " +:+ who)
      | TurnFalse => logging_info "everyone lost"
      | TurnNone => play turns' fuel
      end
  end.

(** What the script does after the loop. *)
Definition report : Py unit :=
  n <- gets totalTurns ;;
  logging_info ("total turns: " +:+ pretty n) ;;;
  tp <- gets totalPlayers ;;
  sts <- comprehension (set_iter tp) stats ;;
  logging_info ("player stats: " +:+ json_dumps sts).

(** The script, [if __name__ == '__main__'], given the parsed arguments
    and the board. *)
Definition main (turns fuel : nat) (seed : Z) (playerNames : list string)
    (board : list (option EffectFunc * option PersistentEffectFunc * option string))
  : Res Game unit :=
  (play turns fuel ;;; report)
    (newGame ["seed: " +:+ pretty seed] seed playerNames board).

End Engine.

Arguments Game : clear implicits.

(** ** The effect catalogue

    The effect functions of [dog.py] are closures and module-level
    functions; a place holds one of them.  The constructors below name
    them, and the definitions after them are their bodies. *)

Inductive EffectFunc : Type :=
  | effect_4 | effect_9 | effect_13 | effect_18 | effect_23 | effect_25
  | effect_31 | effect_33 | effect_40 | effect_44 | effect_45 | effect_46
  | effect_47 | effect_48.

Inductive PersistentEffectFunc : Type :=
  | ifAnyoneRollsNFactory (n : Z)
  | effect_15_persistent
  | effect_20_persistent.

Definition effect_6_persistent := ifAnyoneRollsNFactory 2.
Definition effect_16_persistent := ifAnyoneRollsNFactory 3.
Definition effect_28_persistent := ifAnyoneRollsNFactory 5.
Definition effect_35_persistent := ifAnyoneRollsNFactory 4.
Definition effect_37_persistent := ifAnyoneRollsNFactory 6.

Section Catalogue.
Context {RNG : Type}.
Context (randint : Z → Z → RNG → Z * RNG).
Context (getrandbits : Z → RNG → Z * RNG).

Abbreviation Place := (Place.t EffectFunc PersistentEffectFunc).
Abbreviation Py := (M (Game RNG EffectFunc PersistentEffectFunc)).

(** The function [f] that [ifAnyoneRollsNFactory(n)] returns. *)
Definition ifAnyoneRollsN (n : Z) (place : Place) (testingPlayer roll : Z)
  : Py PersistentEffectResult :=
  if bool_decide (roll = n) then
    players <- getPlayers ;;
    for_each players (λ p, move p (- n)) ;;;
    ret (players, true)
  else ret ([], false).

Definition do_effect_4 (place : Place) (player : Z) : Py EffectResult :=
  move player (-2) ;;; ret (Moved [player]).

Definition do_effect_9 (place : Place) (player : Z) : Py EffectResult :=
  c <- coin getrandbits player ;;
  if c then
    r <- d6 randint player ;;
    move player r ;;;
    ret (Moved [player])
  else ret (Moved []).

Definition do_effect_13 (place : Place) (player : Z) : Py EffectResult :=
  p <- deref player ;;
  store player
    (Player.mk (Player.id p) (Player.name p) (Player.currentPlace p)
       (Player.totalPlaces p) (Player.turnsToSkip p + 1)) ;;;
  ret (Moved []).

Definition do_effect_15_persistent (place : Place) (playerTesting roll : Z)
  : Py PersistentEffectResult :=
  if bool_decide (roll = 1) then
    players <- getPlayersInPlace place ;;
    for_each players (λ p, move p 1) ;;;
    ret (players, true)
  else ret ([], false).

Definition do_effect_18 (game : Place) (player : Z) : Py EffectResult :=
  move player 2 ;;; ret (Moved [player]).

Definition do_effect_20_persistent (place : Place) (player roll : Z)
  : Py PersistentEffectResult :=
  c <- getCurrentPlace player ;;
  if Place_eq c place then
    move player (- roll) ;;;
    ret ([player], true)
  else ret ([], false).

Definition do_effect_23 (place : Place) (player : Z) : Py EffectResult :=
  move player 2 ;;; ret (Moved [player]).

Definition do_effect_25 (game : Place) (player : Z) : Py EffectResult :=
  move player (-5) ;;; ret (Moved [player]).

Definition do_effect_31 (place : Place) (player : Z) : Py EffectResult :=
  c <- coin getrandbits player ;;
  if c then move player (-2) ;;; ret (Moved [player])
  else ret (Moved []).

Definition do_effect_33 (place : Place) (player : Z) : Py EffectResult :=
  r1 <- d6 randint player ;;
  r2 <- d6 randint player ;;
  r3 <- d6 randint player ;;
  let rolls := [bool_decide (r1 = 6); bool_decide (r2 = 6); bool_decide (r3 = 6)] in
  if forallb (λ b, b) rolls then
    ps <- gets players ;;
    let players := filter (λ p, p ≠ player) ps in
    for_each players (λ p, move p (-18)) ;;;
    ret (Moved players)
  else ret (Moved []).

Definition do_effect_40 (place : Place) (player : Z) : Py EffectResult :=
  r <- d6 randint player ;;
  if bool_decide (r `mod` 2 = 0) then
    losePlayer player ;;;
    ret (Moved [])
  else ret (Moved []).

Definition do_effect_44 (place : Place) (player : Z) : Py EffectResult :=
  move player 2 ;;; ret (Moved [player]).

Definition do_effect_45 (place : Place) (player : Z) : Py EffectResult :=
  move player 2 ;;; ret (Moved [player]).

Definition do_effect_46 (place : Place) (player : Z) : Py EffectResult :=
  move player (-1) ;;; ret (Moved [player]).

Definition do_effect_47 (place : Place) (player : Z) : Py EffectResult :=
  move player (-4) ;;; ret (Moved [player]).

(** The [for otherRoll in otherRolls] loop of [effect_48], and the
    [return player] after it. *)
Fixpoint effect_48_loop (otherRolls : list Z) (myRoll player : Z)
  : Py EffectResult :=
  match otherRolls with
  | [] => ret (Winner player)
  | otherRoll :: rest =>
      if myRoll <=? otherRoll then
        move player (-20) ;;; ret (Moved [player])
      else effect_48_loop rest myRoll player
  end.

Definition do_effect_48 (place : Place) (player : Z) : Py EffectResult :=
  ps <- gets players ;;
  otherRolls <- comprehension (filter (λ p, p ≠ player) ps) (d6 randint) ;;
  myRoll <- d6 randint player ;;
  effect_48_loop otherRolls myRoll player.

(** Calling what a place holds. *)
Definition call_effect (f : EffectFunc) : Place → Z → Py EffectResult :=
  match f with
  | effect_4 => do_effect_4
  | effect_9 => do_effect_9
  | effect_13 => do_effect_13
  | effect_18 => do_effect_18
  | effect_23 => do_effect_23
  | effect_25 => do_effect_25
  | effect_31 => do_effect_31
  | effect_33 => do_effect_33
  | effect_40 => do_effect_40
  | effect_44 => do_effect_44
  | effect_45 => do_effect_45
  | effect_46 => do_effect_46
  | effect_47 => do_effect_47
  | effect_48 => do_effect_48
  end.

Definition call_persistent (f : PersistentEffectFunc)
  : Place → Z → Z → Py PersistentEffectResult :=
  match f with
  | ifAnyoneRollsNFactory n => ifAnyoneRollsN n
  | effect_15_persistent => do_effect_15_persistent
  | effect_20_persistent => do_effect_20_persistent
  end.

End Catalogue.

(** The data for the board proper *)

Definition BLANK : option EffectFunc * option PersistentEffectFunc * option string :=
  (None, None, None).

Definition BOARD : list (option EffectFunc * option PersistentEffectFunc * option string) := [
  BLANK;
  BLANK;
  (None, None, Some "pretty good");
  BLANK;
  (Some effect_4, None, Some "Go back 2 spaces");
  BLANK;
  (None, Some effect_6_persistent, Some "If anyone rolls a 2, everyone goes back two spaces");
  (None, None, Some "dog_0");
  (None, None, Some "woof");
  (Some effect_9, None, Some "Roll again but only if you feel like it");
  BLANK;
  (None, None, Some "sometimes I eat cheese");
  BLANK;
  (Some effect_13, None, None);
  BLANK;
  (None, Some effect_15_persistent, Some "If anyone rolls a 1, go forward 1 space");
  (None, Some effect_16_persistent, Some "If anyone rolls a 3, everyone goes back three spaces");
  (None, None, Some "dog_1");
  (Some effect_18, None, Some "Go forward two spaces");
  (None, None, Some "neat");
  (None, Some effect_20_persistent, Some "When you roll to move, go back that many spaces");
  BLANK;
  (None, None, Some "dog_2");
  (Some effect_23, None, Some "Go forward two spaces");
  BLANK;
  (Some effect_25, None, Some "Go back five spaces");
  BLANK;
  (None, None, Some "yes");
  (None, Some effect_28_persistent, Some "If anyone rolls a 5, everyone goes back five spaces");
  (None, None, Some "dog_3");
  BLANK;
  (Some effect_31, None, Some "Go back two spaces if it tickles your fancy");
  BLANK;
  (Some effect_33, None, Some "Roll three times. If you roll three 6s, everyone else moves back 18 spaces. PRAISE SATAN");
  (None, None, Some "sometimes");
  (None, Some effect_35_persistent, Some "If anyone rolls a 4, everyone moves back 4 spaces");
  BLANK;
  (None, Some effect_37_persistent, Some "If anyone rolls a 6, everyone moves back six spaces");
  (None, None, Some "dog_4");
  BLANK;
  (Some effect_40, None, Some "Roll a die. If you roll an even number, you lose");
  BLANK;
  BLANK;
  (None, None, Some "no :(");
  (Some effect_44, None, Some "Go forward 2 spaces");
  (Some effect_45, None, Some "Go forward 2 spaces");
  (Some effect_46, None, Some "Go back 1 spaces");
  (Some effect_47, None, Some "Go back 4 spaces");
  (Some effect_48, None, Some "On your turn, everyone rolls a die. If you have the highest number, you win. If you tie for the highest or someone's roll beats yours, go back twenty spaces")
].

(** ** Games to run

    [random.Random] is replaced by a source that replays a given sequence
    of draws; nothing proved below for all games depends on it. *)

Definition replay_randint (a b : Z) (r : list Z) : Z * list Z :=
  match r with
  | [] => (a, [])
  | x :: r' => (x, r')
  end.

Definition replay_getrandbits (k : Z) (r : list Z) : Z * list Z :=
  match r with
  | [] => (0, [])
  | x :: r' => (x, r')
  end.

Abbreviation DogGame := (Game (list Z) EffectFunc PersistentEffectFunc).

(** The effects of the catalogue, drawing from the replayed source. *)
Definition dog_effect := call_effect replay_randint replay_getrandbits.
Definition dog_persistent := @call_persistent (list Z).

(** A game in progress on [BOARD]: the players of [roster] in turn order,
    [offset] the current player, [draws] what the source will yield. *)
Definition board_game (draws : list Z) (roster : list Player.t) (offset : Z)
  : DogGame :=
  {| rng := draws;
     currentPlayerOffset := offset;
     currentTurn := 0;
     totalPlayers := py_set (Player.id <$> roster);
     players := Player.id <$> roster;
     places := places (newGame (λ _, draws) [] 0 [] BOARD);
     totalTurns := 0;
     heap := list_to_map ((λ p, (Player.id p, p)) <$> roster);
     log := [] |}.

(** Where a player stands and how far it has walked, in a state. *)
Definition place_of {RNG EF PEF} (g : Game RNG EF PEF) (self : Z) : option Z :=
  Player.currentPlace <$> heap g !! self.
Definition walked_of {RNG EF PEF} (g : Game RNG EF PEF) (self : Z) : option Z :=
  Player.totalPlaces <$> heap g !! self.

Definition board_length {RNG EF PEF} (g : Game RNG EF PEF) : Z :=
  Z.of_nat (length (places g)).

(** The player whose turn is next, if the offset points at one. *)
Definition current_player {RNG EF PEF} (g : Game RNG EF PEF) : option Z :=
  if decide (0 ≤ currentPlayerOffset g)
  then players g !! Z.to_nat (currentPlayerOffset g)
  else None.

(** [json.dumps] of the list of [stats()] dicts, for names that need no
    escaping: the default separators, the keys in insertion order. *)
Definition dquote : string := String (Ascii.ascii_of_nat 34) EmptyString.

Definition dumps_stat (st : Z * string * Z * Z) : string :=
  let '(id, name, current_place, total_places) := st in
  "{" +:+ dquote +:+ "id" +:+ dquote +:+ ": " +:+ pretty id +:+ ", "
    +:+ dquote +:+ "name" +:+ dquote +:+ ": " +:+ dquote +:+ name +:+ dquote +:+ ", "
    +:+ dquote +:+ "current_place" +:+ dquote +:+ ": " +:+ pretty current_place +:+ ", "
    +:+ dquote +:+ "total_places" +:+ dquote +:+ ": " +:+ pretty total_places +:+ "}".

Fixpoint join (sep : string) (l : list string) : string :=
  match l with
  | [] => EmptyString
  | [x] => x
  | x :: l' => x +:+ sep +:+ join sep l'
  end.

Definition dumps_stats (sts : list (Z * string * Z * Z)) : string :=
  "[" +:+ join ", " (dumps_stat <$> sts) +:+ "]".

(** One turn, and the whole script, of the game of [dog.py] on replayed
    draws; a set is walked in the order its elements came in. *)
Definition dog_doTurn : nat → M DogGame TurnResult :=
  doTurn replay_randint (λ s, s) dog_effect dog_persistent.

Definition dog_main (draws : list Z) (turns fuel : nat) (seed : Z)
    (playerNames : list string) : Res DogGame unit :=
  main (λ _, draws) replay_randint (λ s, s) dog_effect dog_persistent
    dumps_stats turns fuel seed playerNames BOARD.

(** ** What a turn does with the persistent effects, as relations *)

Section PersistentSpec.
Context {RNG EF PEF : Type}.
Context (call_persistent :
           PEF → Place.t EF PEF → Z → Z → M (Game RNG EF PEF) PersistentEffectResult).

(** [untriggered cur roll ps g g']: from the state [g], the persistent
    effect of each entry of [ps] was executed once, in the order of [ps],
    with the player [cur] and the roll [roll]; each returned and reported
    that it did not activate, and they left the state [g']. *)
Inductive untriggered (cur roll : Z)
  : list (Place.t EF PEF) → Game RNG EF PEF → Game RNG EF PEF → Prop :=
  | untriggered_nil g : untriggered cur roll [] g g
  | untriggered_cons place ps l g g1 g2 :
      executePersistentEffect call_persistent place cur roll g = Ok (l, false) g1 →
      untriggered cur roll ps g1 g2 →
      untriggered cur roll (place :: ps) g g2.

(** The player [p] stands on a place that has a persistent effect. *)
Definition on_persistent_place (g : Game RNG EF PEF) (p : Z) : bool :=
  match getCurrentPlace p g with
  | Ok q _ => hasPersistentEffect q
  | Raise _ _ => false
  end.

(** The reading "once per occupied place, not once per occupying player":
    no place comes twice among the places whose persistent effect a turn
    goes through. *)
Definition once_per_occupied_place (g : Game RNG EF PEF) : Prop :=
  ∀ ps, getCurrentPersistentEffectPlaces g = Ok ps g → NoDup (Place.id <$> ps).

End PersistentSpec.

(** ** The board stays the same *)

(** The places [newGame] builds from [BOARD]. *)
Definition board_places : list (Place.t EffectFunc PersistentEffectFunc) :=
  (λ '(id, (effect, persistentEffect, msg)),
     Place.mk id effect persistentEffect msg) <$> enumerate 0 BOARD.

(** A call that leaves [Game.places] as it found it, whether it returns or
    raises. *)
Definition keeps_places {RNG EF PEF A} (m : M (Game RNG EF PEF) A) : Prop :=
  ∀ g, places (state_of (m g)) = places g.

(** ** Looking for a record in the log *)

(** [needle in s], for two strings. *)
Fixpoint contains (needle s : string) : bool :=
  if String.prefix needle s then true
  else match s with
       | EmptyString => false
       | String _ s' => contains needle s'
       end.

(** ** Invariants and the exceptions of a call *)

(** [safe I X m]: from a state in which [I] holds, the call [m] leaves a
    state in which [I] holds, whether it returns or raises, and it raises
    only exceptions in [X]. *)
Definition safe {S A} (I : S → Prop) (X : exn → Prop) (m : M S A) : Prop :=
  ∀ s, I s →
    match m s with
    | Ok _ s' => I s'
    | Raise e s' => I s' ∧ X e
    end.

(** The player object [Player.move] leaves for a player [p] on a board of
    [n] places: the two fields it assigns, with the step as the branches
    of the method clamp it. *)
Definition after_move (n : Z) (p : Player.t) (step : Z) : Player.t :=
  if step >? 0 then
    let step :=
      if Player.currentPlace p + step >=? n
      then (n - 1) - Player.currentPlace p else step in
    Player.mk (Player.id p) (Player.name p) (Player.currentPlace p + step)
      (Player.totalPlaces p + step) (Player.turnsToSkip p)
  else if step <? 0 then
    let step :=
      if Player.currentPlace p + step <? 0
      then Player.currentPlace p else step in
    Player.mk (Player.id p) (Player.name p) (Player.currentPlace p + step)
      (Player.totalPlaces p + (- step)) (Player.turnsToSkip p)
  else p.

(** ** The game of [dog.py] *)

(** Every player object stands on one of the 49 places of [BOARD] and has
    no negative number of turns to skip, and the board is [BOARD]. *)
Definition on_board {RNG} (g : Game RNG EffectFunc PersistentEffectFunc) : Prop :=
  places g = board_places
  ∧ ∀ r p, heap g !! r = Some p →
      0 ≤ Player.currentPlace p ≤ 48 ∧ 0 ≤ Player.turnsToSkip p.

(** [randint(1, 6)] yields a number from 1 to 6. *)
Definition die_in_range {RNG} (randint : Z → Z → RNG → Z * RNG) : Prop :=
  ∀ r, 1 ≤ (randint 1 6 r).1 ≤ 6.

(** Walking a set visits elements of the set only. *)
Definition walks_the_set (set_iter : list Z → list Z) : Prop :=
  ∀ s x, x ∈ set_iter s → x ∈ s.

(** How many more rounds of the main loop a player standing on place [c]
    of [BOARD] can cause: none on a place whose effect returns nobody or
    that has no effect, one more than the place it is sent to otherwise. *)
Definition rank (c : Z) : nat :=
  match c with
  | 4 | 9 | 18 | 25 | 31 | 47 | 48 => 1%nat
  | 23 | 45 => 2%nat
  | 33 | 46 => 3%nat
  | 44 => 4%nat
  | _ => 0%nat
  end.

(** The exceptions a turn of the game is shown never to raise. *)
Definition never_raised (e : exn) : Prop :=
  e ≠ AttributeError ∧ e ≠ ZeroDivisionError ∧ e ≠ OutOfFuel.

(** The exceptions no turn of the game raises, whatever the bound on its
    main loop. *)
Definition never_in_a_turn (e : exn) : Prop :=
  e ≠ AttributeError ∧ e ≠ ZeroDivisionError.

(** The rounds of the main loop a player in [movedPlayers] can still
    cause: none for a reference to no object. *)
Definition rounds_left {RNG} (g : Game RNG EffectFunc PersistentEffectFunc)
    (r : Z) : nat :=
  match place_of g r with
  | Some c => S (rank c)
  | None => 0%nat
  end.

(** A replayed die that keeps every draw in the range asked for, as
    [random.Random.randint] does; a draw already in [a..b] is replayed as
    it is. *)
Definition ranged_randint (a b : Z) (r : list Z) : Z * list Z :=
  match r with
  | [] => (a, [])
  | x :: r' => (a + (x - a) `mod` (b - a + 1), r')
  end.

(** Every roster entry refers to a player object. *)
Definition roster_alive {RNG EF PEF} (g : Game RNG EF PEF) : Prop :=
  ∀ r, r ∈ players g → is_Some (heap g !! r).

(** A run that stopped because the fuel of the model ran out, which no run
    of the program does. *)
Definition out_of_fuel {S A} (r : Res S A) : Prop :=
  match r with
  | Raise OutOfFuel _ => True
  | _ => False
  end.

(** * Properties *)

(** ** Player.move *)

Section MoveFacts.
Context {RNG EF PEF : Type}.
Implicit Types (g : Game RNG EF PEF) (p : Player.t).

Ltac run_move :=
  unfold place_of, walked_of, board_length, move, getCurrentPlace, deref,
    store, logging_info, of_option, bind, ret, raise, gets, modify;
  simpl.

(** A forward move ends on [currentPlace + step], or on the last place
    when that is beyond the board, and adds the distance to [totalPlaces]. *)
Lemma move_forward g self step p :
  heap g !! self = Some p → step > 0 →
  ∃ p', heap (state_of (move self step g)) !! self = Some p'
    ∧ Player.currentPlace p' =
        (if Player.currentPlace p + step >=? board_length g
         then board_length g - 1 else Player.currentPlace p + step)
    ∧ Player.totalPlaces p' - Player.totalPlaces p =
        Player.currentPlace p' - Player.currentPlace p.
Proof.
  intros Hp Hs. run_move.
  destruct (Z.gtb_spec step 0); [|lia]. rewrite Hp. simpl.
  rewrite lookup_insert_eq.
  eexists. split.
  - destruct (py_getitem _ _); simpl; rewrite ?lookup_insert_eq; simpl;
      rewrite ?lookup_insert_eq; reflexivity.
  - simpl. destruct (_ >=? _); lia.
Qed.

(** A backward move that stays on the board ends on [currentPlace + step];
    one that would pass place 0 sets [step = self.currentPlace] and so
    ends on twice the place it started from.  In both cases [totalPlaces]
    changes by the opposite of the change of [currentPlace]. *)
Lemma move_backward g self step p :
  heap g !! self = Some p → step < 0 →
  ∃ p', heap (state_of (move self step g)) !! self = Some p'
    ∧ Player.currentPlace p' =
        (if Player.currentPlace p + step <? 0
         then 2 * Player.currentPlace p else Player.currentPlace p + step)
    ∧ Player.totalPlaces p' - Player.totalPlaces p =
        - (Player.currentPlace p' - Player.currentPlace p).
Proof.
  intros Hp Hs. run_move.
  destruct (Z.gtb_spec step 0); [lia|].
  destruct (Z.ltb_spec step 0); [|lia]. rewrite Hp. simpl.
  rewrite lookup_insert_eq.
  eexists. split.
  - destruct (py_getitem _ _); simpl; rewrite ?lookup_insert_eq; simpl;
      rewrite ?lookup_insert_eq; reflexivity.
  - simpl. destruct (_ <? _); lia.
Qed.

(** [move(0)] changes no player. *)
Lemma move_zero g self : heap (state_of (move self 0 g)) = heap g.
Proof.
  run_move. destruct (heap g !! self); [|done]. simpl.
  destruct (py_getitem _ _); simpl; [|done].
  by destruct (heap g !! self).
Qed.

(** X1: a move that does not try to pass place 0 keeps the player on the
    board, on a non-empty board: the player ends on [currentPlace + step],
    or on the last place when that is beyond the board. *)
Lemma move_stays_on_board g self step p :
  heap g !! self = Some p →
  0 ≤ Player.currentPlace p < board_length g →
  0 ≤ Player.currentPlace p + step →
  ∃ c, place_of (state_of (move self step g)) self = Some c
       ∧ 0 ≤ c < board_length g
       ∧ c = Z.min (Player.currentPlace p + step) (board_length g - 1).
Proof.
  intros Hp Hin Hno. unfold place_of.
  destruct (Z.lt_trichotomy step 0) as [Hneg|[->|Hpos]].
  - destruct (move_backward g self step p Hp Hneg) as (p' & -> & Hc & _).
    exists (Player.currentPlace p'). split; [done|].
    rewrite Hc. destruct (Z.ltb_spec (Player.currentPlace p + step) 0); lia.
  - rewrite move_zero, Hp. eexists. split; [done|]. simpl. lia.
  - destruct (move_forward g self step p Hp ltac:(lia)) as (p' & -> & Hc & _).
    exists (Player.currentPlace p'). split; [done|].
    rewrite Hc.
    destruct (Z.geb_spec (Player.currentPlace p + step) (board_length g)); lia.
Qed.

(** X2: a move that does not try to pass place 0 adds to [totalPlaces]
    the distance between the place it starts from and the place it ends
    on. *)
Lemma move_counts_distance g self step p :
  heap g !! self = Some p →
  0 ≤ Player.currentPlace p < board_length g →
  0 ≤ Player.currentPlace p + step →
  ∃ p', heap (state_of (move self step g)) !! self = Some p'
    ∧ Player.totalPlaces p' =
        Player.totalPlaces p + Z.abs (Player.currentPlace p' - Player.currentPlace p).
Proof.
  intros Hp Hin Hno.
  destruct (Z.lt_trichotomy step 0) as [Hneg|[->|Hpos]].
  - destruct (move_backward g self step p Hp Hneg) as (p' & Hp' & Hc & Ht).
    exists p'. split; [done|].
    destruct (Z.ltb_spec (Player.currentPlace p + step) 0); lia.
  - rewrite move_zero. exists p. split; [done|]. lia.
  - destruct (move_forward g self step p Hp) as (p' & Hp' & Hc & Ht); [lia|].
    exists p'. split; [done|].
    destruct (Z.geb_spec (Player.currentPlace p + step) (board_length g)); lia.
Qed.

End MoveFacts.

(** C1 (code defect): a player on place 30 of the 49 places of [BOARD] that
    is told to move 31 places back ends on place 60, beyond the board; the
    look-up of its place for the log record then raises IndexError. *)
Theorem move_underflow_leaves_board :
  let g := board_game [] [Player.mk 0 "A" 30 30 0] 0 in
  board_length g = 49
  ∧ place_of g 0 = Some 30
  ∧ ∃ g', move 0 (-31) g = Raise IndexError g'
          ∧ place_of g' 0 = Some 60
          ∧ board_length g' = 49.
Proof. vm_compute. eauto 10. Qed.

(** C2 (code defect): a player on place 1 that is told to move 2 places
    back ends on place 2, not on place 0: the clamped step is
    [self.currentPlace], not its opposite. *)
Theorem move_underflow_misses_zero :
  let g := board_game [] [Player.mk 0 "A" 1 1 0] 0 in
  place_of g 0 = Some 1
  ∧ ∃ g', move 0 (-2) g = Ok tt g'
          ∧ place_of g' 0 = Some 2
          ∧ log g' = ["A (0) moved 1 to place 2, message: pretty good"].
Proof. vm_compute. eauto 10. Qed.

(** C3 (code defect): A stands on place 1 and B on place 6, A rolls a 2.
    The persistent effect of place 6 moves everyone back 2; A's step is
    clamped to 1 (the log says so) and A's [totalPlaces] goes from 1 down
    to 0. *)
Theorem turn_decreases_totalPlaces :
  let g := board_game [2] [Player.mk 0 "A" 1 1 0; Player.mk 1 "B" 6 6 0] 0 in
  walked_of g 0 = Some 1
  ∧ ∃ g', dog_doTurn 10 g = Ok TurnNone g'
          ∧ walked_of g' 0 = Some 0
          ∧ place_of g' 0 = Some 2
          ∧ log g' = ["turn 1"; "die roll by A (0): 2";
                      "A (0) moved 1 to place 2, message: pretty good";
                      "B (1) moved -2 to place 4, message: Go back 2 spaces";
                      "B (1) moved -2 to place 2, message: pretty good"].
Proof. vm_compute. eauto 10. Qed.

(** ** Game.losePlayer and the offset *)

Lemma py_getitem_nat {A} (l : list A) (k : nat) :
  py_getitem l (Z.of_nat k) = l !! k.
Proof.
  unfold py_getitem. destruct (decide _) as [_|]; [|lia]. by rewrite Nat2Z.id.
Qed.

Lemma py_pop_nat {A} (l : list A) (k : nat) :
  (k < length l)%nat → py_pop l (Z.of_nat k) = Some (delete k l).
Proof.
  intros Hk. unfold py_pop. destruct (decide (0 ≤ _)) as [_|]; [|lia].
  destruct (decide _) as [_|]; [|lia]. by rewrite Nat2Z.id.
Qed.

Lemma py_index_lookup (l : list Z) (x : Z) (j : Z) :
  py_index l x = Some j →
  0 ≤ j < Z.of_nat (length l) ∧ l !! Z.to_nat j = Some x.
Proof.
  revert j. induction l as [|y l IH]; intros j; simpl; [done|].
  destruct (decide (x = y)) as [->|Hne].
  - intros [= <-]. split; [lia|done].
  - destruct (py_index l x) as [i|]; [|done]. simpl. intros [= <-].
    destruct (IH i eq_refl) as [Hi Hl]. split; [lia|].
    replace (Z.to_nat (Z.succ i)) with (S (Z.to_nat i)) by lia. done.
Qed.

Section LoseFacts.
Context {RNG EF PEF : Type}.
Implicit Types (g : Game RNG EF PEF).

Ltac run_lose :=
  unfold losePlayer, _rewindCurrentPlayer, _lastPlayerOffset,
    _advanceCurrentPlayer, _nextPlayerOffset, players_pop, py_mod,
    of_option, bind, ret, raise, gets, modify;
  simpl.

(** Losing the player the offset points at: the player goes, and the
    offset is the one before it, modulo the length the roster had. *)
Lemma losePlayer_current g (k : nat) p :
  players g !! k = Some p →
  currentPlayerOffset g = Z.of_nat k →
  losePlayer p g =
    Ok tt (set_players (delete k (players g))
             (set_currentPlayerOffset
                ((Z.of_nat k - 1) `mod` Z.of_nat (length (players g))) g)).
Proof.
  intros Hk Ho. pose proof (lookup_lt_Some _ _ _ Hk) as Hlt.
  destruct g as [r o t tp ps pl tt' h lg]; simpl in *; subst o.
  run_lose. rewrite py_getitem_nat, Hk. simpl.
  rewrite bool_decide_eq_true_2 by done. simpl.
  destruct (decide (Z.of_nat (length ps) = 0)) as [|_]; [lia|].
  simpl.
  replace (((Z.of_nat k - 1) `mod` Z.of_nat (length ps) + 1)
             `mod` Z.of_nat (length ps)) with (Z.of_nat k).
  - destruct (decide (Z.of_nat (length ps) = 0)) as [|_]; [lia|].
    simpl. by rewrite py_pop_nat.
  - rewrite Zplus_mod_idemp_l.
    replace (Z.of_nat k - 1 + 1) with (Z.of_nat k) by lia.
    rewrite Z.mod_small; lia.
Qed.

(** Losing another player, found at position [j]. *)
Lemma losePlayer_other g (k : nat) q p (j : Z) :
  players g !! k = Some q →
  currentPlayerOffset g = Z.of_nat k →
  p ≠ q →
  py_index (players g) p = Some j →
  losePlayer p g =
    Ok tt (set_players (delete (Z.to_nat j) (players g))
             (set_currentPlayerOffset
                (if Z.of_nat k >? j then Z.of_nat k - 1 else Z.of_nat k) g)).
Proof.
  intros Hk Ho Hne Hj. pose proof (lookup_lt_Some _ _ _ Hk) as Hlt.
  destruct (py_index_lookup _ _ _ Hj) as [Hjr _].
  destruct g as [r o t tp ps pl tt' h lg]; simpl in *; subst o.
  run_lose. rewrite py_getitem_nat, Hk. simpl.
  rewrite bool_decide_eq_false_2 by done. rewrite Hj. simpl.
  assert (py_pop ps j = Some (delete (Z.to_nat j) ps)) as Hpop.
  { rewrite <- (py_pop_nat ps (Z.to_nat j)) by lia. f_equal. lia. }
  destruct (Z.gtb_spec (Z.of_nat k) j) as [Hgt|Hle]; simpl.
  - destruct (decide (Z.of_nat (length ps) = 0)) as [|_]; [lia|].
    simpl. rewrite Z.mod_small by lia. by rewrite Hpop.
  - by rewrite Hpop.
Qed.

(** X7: the offset stays inside a roster that stays non-empty, whoever
    is lost, unless the lost player is the current one at position 0. *)
Lemma losePlayer_offset_in_range g g' (k : nat) q p :
  players g !! k = Some q →
  currentPlayerOffset g = Z.of_nat k →
  ¬ (k = 0%nat ∧ p = q) →
  losePlayer p g = Ok tt g' →
  players g' ≠ [] →
  0 ≤ currentPlayerOffset g' < Z.of_nat (length (players g')).
Proof.
  intros Hk Ho Hhead Hrun Hne. pose proof (lookup_lt_Some _ _ _ Hk) as Hlt.
  destruct (decide (p = q)) as [->|Hpq].
  - rewrite (losePlayer_current g k q Hk Ho) in Hrun.
    injection Hrun as <-. simpl in *.
    rewrite length_delete by eauto.
    assert (k ≠ 0%nat) by tauto.
    rewrite Z.mod_small by lia. lia.
  - destruct (py_index (players g) p) as [j|] eqn:Hj.
    + rewrite (losePlayer_other g k q p j Hk Ho Hpq Hj) in Hrun.
      injection Hrun as <-. simpl in *.
      destruct (py_index_lookup _ _ _ Hj) as [Hjr Hjl].
      rewrite length_delete by eauto.
      destruct (Z.gtb_spec (Z.of_nat k) j).
      * lia.
      * assert (Z.of_nat k ≠ j); [|lia].
        intros <-. rewrite Nat2Z.id in Hjl. congruence.
    + revert Hrun. run_lose. rewrite Ho, py_getitem_nat, Hk. simpl.
      rewrite bool_decide_eq_false_2 by done. by rewrite Hj.
Qed.

(** Losing the current player at position 0 of a roster of [n ≥ 2]
    leaves the offset at [n - 1], the length of the roster that is left. *)
Lemma losePlayer_head_offset g p :
  players g !! 0%nat = Some p →
  currentPlayerOffset g = 0 →
  (2 ≤ length (players g))%nat →
  ∃ g', losePlayer p g = Ok tt g'
        ∧ currentPlayerOffset g' = Z.of_nat (length (players g')).
Proof.
  intros Hk Ho Hn. eexists. split.
  - by apply (losePlayer_current g 0 p).
  - simpl. rewrite length_delete by eauto.
    replace (0 - 1) with (-1) by lia.
    rewrite <- (Z_mod_plus_full _ 1), Z.mod_small; lia.
Qed.

(** X8: losing the current player anywhere but at position 0, then
    advancing as the end of the turn does: the player that followed the
    lost one in turn order is the current player. *)
Lemma losePlayer_then_advance g (k : nat) p q :
  players g !! k = Some p →
  currentPlayerOffset g = Z.of_nat k →
  (0 < k)%nat →
  players g !! ((k + 1) `mod` length (players g))%nat = Some q →
  ∃ g', (losePlayer p ;;; _advanceCurrentPlayer) g = Ok tt g'
        ∧ current_player g' = Some q
        ∧ players g' = delete k (players g).
Proof.
  intros Hk Ho Hpos Hq. pose proof (lookup_lt_Some _ _ _ Hk) as Hlt.
  unfold bind at 1. rewrite (losePlayer_current g k p Hk Ho).
  run_lose. rewrite length_delete by eauto.
  destruct (decide _) as [|_]; [lia|]. simpl.
  eexists. split; [done|]. split; [|done].
  unfold current_player. simpl.
  rewrite (Z.mod_small (Z.of_nat k - 1)) by lia.
  replace (Z.of_nat k - 1 + 1) with (Z.of_nat k) by lia.
  destruct (decide _) as [_|Hneg].
  2:{ exfalso. apply Hneg. apply Z.mod_pos_bound. lia. }
  destruct (decide (S k = length (players g))) as [Hlast|Hmid].
  - replace (Z.of_nat (length (players g) - 1)) with (Z.of_nat k) by lia.
    rewrite Z_mod_same_full. simpl.
    rewrite list_lookup_delete_lt by lia.
    replace (k + 1)%nat with (length (players g)) in Hq by lia.
    by rewrite Nat.Div0.mod_same in Hq.
  - rewrite Z.mod_small by lia. rewrite Nat2Z.id.
    rewrite list_lookup_delete_ge by lia.
    rewrite Nat.mod_small in Hq by lia.
    by replace (S k) with (k + 1)%nat by lia.
Qed.

(** Losing the current player at position 0 of a roster of three or more,
    then advancing: the current player is the one that stood two places
    after the lost one. *)
Lemma losePlayer_head_then_advance g p q :
  players g !! 0%nat = Some p →
  currentPlayerOffset g = 0 →
  (3 ≤ length (players g))%nat →
  players g !! 2%nat = Some q →
  ∃ g', (losePlayer p ;;; _advanceCurrentPlayer) g = Ok tt g'
        ∧ current_player g' = Some q
        ∧ players g' = delete 0%nat (players g).
Proof.
  intros Hk Ho Hn Hq.
  unfold bind at 1. rewrite (losePlayer_current g 0%nat p Hk Ho).
  run_lose. rewrite length_delete by eauto.
  destruct (decide _) as [|_]; [lia|]. simpl.
  eexists. split; [done|]. split; [|done].
  unfold current_player. simpl.
  assert (((Z.of_nat 0 - 1) `mod` Z.of_nat (length (players g)) + 1)
            `mod` Z.of_nat (length (players g) - 1) = 1) as ->.
  { replace ((Z.of_nat 0 - 1) `mod` Z.of_nat (length (players g)))
      with (Z.of_nat (length (players g)) - 1).
    2:{ rewrite <- (Z_mod_plus_full _ 1), Z.mod_small; lia. }
    replace (Z.of_nat (length (players g)) - 1 + 1)
      with (1 + 1 * Z.of_nat (length (players g) - 1)) by lia.
    rewrite Z_mod_plus_full, Z.mod_small; lia. }
  destruct (decide _) as [_|]; [|lia].
  destruct (players g) as [|x [|y l]]; simpl in *; [lia..|done].
Qed.

(** Advancing leaves the offset inside a non-empty roster. *)
Lemma advance_offset_in_range g :
  players g ≠ [] →
  ∃ g', _advanceCurrentPlayer g = Ok tt g'
        ∧ players g' = players g
        ∧ 0 ≤ currentPlayerOffset g' < Z.of_nat (length (players g')).
Proof.
  intros Hne. run_lose.
  destruct (decide _) as [Hz|Hnz].
  - destruct (players g); [done|simpl in Hz; lia].
  - simpl. eexists. split; [done|]. split; [done|]. simpl.
    apply Z.mod_pos_bound. lia.
Qed.

End LoseFacts.

(** C4 (code defect): A, B and C play in this order and it is A's turn.  A
    rolls a 1, lands on place 40, rolls a 2 there and is lost.  The roster
    left is B, C and the turn ends with the offset on C: B, who followed A
    in turn order, is passed over. *)
Theorem losing_first_player_skips_next :
  let g := board_game [1; 2]
             [Player.mk 0 "A" 39 39 0; Player.mk 1 "B" 5 5 0;
              Player.mk 2 "C" 7 7 0] 0 in
  players g = [0; 1; 2]
  ∧ current_player g = Some 0
  ∧ ∃ g', dog_doTurn 10 g = Ok TurnNone g'
          ∧ players g' = [1; 2]
          ∧ currentPlayerOffset g' = 1
          ∧ current_player g' = Some 2.
Proof. vm_compute. eauto 10. Qed.

(** C5 (code defect): with A and B in the roster and the offset on A,
    losing A leaves the roster B with the offset 1, which is no position
    of it. *)
Theorem losePlayer_head_breaks_offset_bound :
  let g := board_game [] [Player.mk 0 "A" 0 0 0; Player.mk 1 "B" 0 0 0] 0 in
  0 ≤ currentPlayerOffset g < Z.of_nat (length (players g))
  ∧ ∃ g', losePlayer 0 g = Ok tt g'
          ∧ players g' = [1]
          ∧ currentPlayerOffset g' = 1
          ∧ ¬ currentPlayerOffset g' < Z.of_nat (length (players g')).
Proof. vm_compute. split; [done|]. eexists. repeat split; done. Qed.

(** What the offset left behind costs: A and B stand on place 42 and C on
    place 6, A rolls a 2, so the effect of place 6 sends A and B to place
    40.  Both roll a 2 there.  Losing A leaves the offset at 2 in the
    roster B, C, and losing B then reads [self.players[2]]: IndexError. *)
Lemma second_loss_in_a_turn_raises :
  let g := board_game [2; 2; 2]
             [Player.mk 0 "A" 42 42 0; Player.mk 1 "B" 42 42 0;
              Player.mk 2 "C" 6 6 0] 0 in
  ∃ g', dog_doTurn 10 g = Raise IndexError g'
        ∧ players g' = [1; 2]
        ∧ currentPlayerOffset g' = 2.
Proof. vm_compute. eauto. Qed.

(** ** Reasoning about calls that return *)

Lemma bind_Ok {S A B} (m : M S A) (k : A → M S B) s b s' :
  bind m k s = Ok b s' → ∃ a s1, m s = Ok a s1 ∧ k a s1 = Ok b s'.
Proof. unfold bind. destruct (m s) as [a s1|]; [eauto|done]. Qed.

Lemma ret_Ok {S A} (a b : A) (s s' : S) : ret a s = Ok b s' → a = b ∧ s = s'.
Proof. by intros [= -> ->]. Qed.

Lemma gets_Ok {S A} (f : S → A) (s s' : S) a :
  gets f s = Ok a s' → a = f s ∧ s' = s.
Proof. by intros [= <- <-]. Qed.

Lemma of_option_Ok {RNG EF PEF A} e (o : option A) (g g' : Game RNG EF PEF) a :
  of_option e o g = Ok a g' → o = Some a ∧ g' = g.
Proof. destruct o; [by intros [= -> ->]|done]. Qed.

(** Take apart a hypothesis that says a sequence of calls returned. *)
Ltac inv_run H :=
  let a := fresh "a" in
  let s := fresh "g" in
  let H1 := fresh "Hrun" in
  let H2 := fresh "Hrun" in
  lazymatch type of H with
  | bind _ _ _ = Ok _ _ =>
      apply bind_Ok in H; destruct H as (a & s & H1 & H2)
  | ret _ _ = Ok _ _ =>
      apply ret_Ok in H; destruct H as [H1 H2]; subst
  | gets _ _ = Ok _ _ =>
      apply gets_Ok in H; destruct H as [H1 H2]; subst
  | of_option _ _ _ = Ok _ _ =>
      apply of_option_Ok in H; destruct H as [H1 H2]; subst
  end.

Tactic Notation "inv_bind" hyp(H) "as" ident(a) ident(s) ident(H1) ident(H2) :=
  apply bind_Ok in H; destruct H as (a & s & H1 & H2).

(** ** The persistent effects of a turn *)

Section TurnFacts.
Context {RNG EF PEF : Type}.
Context (randint : Z → Z → RNG → Z * RNG).
Context (set_iter : list Z → list Z).
Context (call_effect :
           EF → Place.t EF PEF → Z → M (Game RNG EF PEF) EffectResult).
Context (call_persistent :
           PEF → Place.t EF PEF → Z → Z → M (Game RNG EF PEF) PersistentEffectResult).
Implicit Types (g : Game RNG EF PEF) (ps : list (Place.t EF PEF)).

(** Looking up a player's place reads the state only. *)
Lemma getCurrentPlace_reads g g' p q :
  getCurrentPlace p g = Ok q g' → g' = g.
Proof.
  unfold getCurrentPlace, deref. intros H.
  inv_run H. destruct (heap g !! p); [|done].
  injection Hrun as <- <-. inv_run Hrun0. inv_run Hrun. by inv_run Hrun1.
Qed.

Lemma persistentEffectPlaces_of_reads (l : list Z) g g' ps :
  persistentEffectPlaces_of l g = Ok ps g' → g' = g.
Proof.
  revert ps g'. induction l as [|p l IH]; intros ps g' H; simpl in H.
  - by inv_run H.
  - inv_run H. apply getCurrentPlace_reads in Hrun as ->.
    destruct (hasPersistentEffect a).
    + inv_run Hrun0. apply getCurrentPlace_reads in Hrun as ->.
      inv_run Hrun1. apply IH in Hrun as ->. by inv_run Hrun0.
    + by apply IH in Hrun0.
Qed.

Lemma getCurrentPersistentEffectPlaces_reads g g' ps :
  getCurrentPersistentEffectPlaces g = Ok ps g' → g' = g.
Proof.
  unfold getCurrentPersistentEffectPlaces. intros H.
  inv_run H. inv_run Hrun. by apply persistentEffectPlaces_of_reads in Hrun0.
Qed.

(** The list a turn goes through has one entry for each player of the
    roster that stands on a place with a persistent effect, in the order
    of the roster; the entry is the place the player stands on. *)
Lemma persistentEffectPlaces_of_players (l : list Z) g ps :
  persistentEffectPlaces_of l g = Ok ps g →
  Forall2 (λ p q, getCurrentPlace p g = Ok q g)
    (filter (λ p, on_persistent_place g p = true) l) ps.
Proof.
  revert ps. induction l as [|p l IH]; intros ps H; simpl in H.
  - inv_run H. constructor.
  - inv_run H. pose proof Hrun as Hp.
    apply getCurrentPlace_reads in Hrun as ->.
    assert (on_persistent_place g p = hasPersistentEffect a) as Hon
      by (unfold on_persistent_place; by rewrite Hp).
    rewrite filter_cons.
    destruct (hasPersistentEffect a) eqn:Ha.
    + inv_run Hrun0. pose proof Hrun as Hq.
      apply getCurrentPlace_reads in Hrun as ->.
      inv_run Hrun1. pose proof Hrun as Hl.
      apply persistentEffectPlaces_of_reads in Hrun as ->.
      inv_run Hrun0.
      rewrite decide_True by done. constructor; [done|]. by apply IH.
    + rewrite decide_False by (rewrite Hon; done). by apply IH.
Qed.

(** The loop over the places: either it stops at the first place whose
    effect reports that it activated, or it goes through all of them. *)
Lemma persistent_loop_cases ps cur roll mp g r g' :
  persistent_loop call_persistent ps cur roll mp false g = Ok r g' →
  (∃ pre place post l g1,
      ps = pre ++ place :: post
      ∧ untriggered call_persistent cur roll pre g g1
      ∧ executePersistentEffect call_persistent place cur roll g1 = Ok (l, true) g'
      ∧ r = (py_set l, true))
  ∨ (untriggered call_persistent cur roll ps g g' ∧ r = (mp, false)).
Proof.
  revert g. induction ps as [|place ps IH]; intros g H; simpl in H.
  - inv_run H. right. split; [constructor|done].
  - inv_run H. destruct a as [l [|]].
    + inv_run Hrun0. left. exists [], place, ps, l, g.
      repeat split; [constructor|done].
    + destruct (IH _ Hrun0) as [(pre & pl & post & l' & g1 & -> & Hpre & Hpl & ->)|[Hall ->]].
      * left. exists (place :: pre), pl, post, l', g1.
        repeat split; [|done]. econstructor; eauto.
      * right. split; [|done]. econstructor; eauto.
Qed.

(** The loop over the places, whatever it does: it stops at the first
    place whose effect reports that it activated, or it goes through all of
    them, or it raises what the effect of a place raises. *)
Lemma persistent_loop_outcomes ps cur roll mp g :
  (∃ pre place post l g2 g3,
      ps = pre ++ place :: post
      ∧ untriggered call_persistent cur roll pre g g2
      ∧ executePersistentEffect call_persistent place cur roll g2 = Ok (l, true) g3
      ∧ persistent_loop call_persistent ps cur roll mp false g
        = Ok (py_set l, true) g3)
  ∨ (∃ g2,
      untriggered call_persistent cur roll ps g g2
      ∧ persistent_loop call_persistent ps cur roll mp false g = Ok (mp, false) g2)
  ∨ (∃ pre place post e g2 g3,
      ps = pre ++ place :: post
      ∧ untriggered call_persistent cur roll pre g g2
      ∧ executePersistentEffect call_persistent place cur roll g2 = Raise e g3
      ∧ persistent_loop call_persistent ps cur roll mp false g = Raise e g3).
Proof.
  revert g. induction ps as [|place ps IH]; intros g.
  - right. left. exists g. split; [constructor|done].
  - destruct (executePersistentEffect call_persistent place cur roll g)
      as [[l [|]] g1|e g1] eqn:Hplace.
    + left. exists [], place, ps, l, g, g1.
      split; [done|]. split; [constructor|]. split; [done|].
      simpl. unfold bind. by rewrite Hplace.
    + assert (persistent_loop call_persistent (place :: ps) cur roll mp false g
              = persistent_loop call_persistent ps cur roll mp false g1)
        as Hstep by (simpl; unfold bind; by rewrite Hplace).
      rewrite Hstep.
      destruct (IH g1)
        as [(pre & pl & post & l' & g2 & g3 & -> & Hpre & Hpl & Hloop)
           |[(g2 & Hall & Hloop)
            |(pre & pl & post & e & g2 & g3 & -> & Hpre & Hpl & Hloop)]].
      * left. exists (place :: pre), pl, post, l', g2, g3.
        split; [done|]. split; [by econstructor|]. by split.
      * right. left. exists g2. split; [by econstructor|done].
      * right. right. exists (place :: pre), pl, post, e, g2, g3.
        split; [done|]. split; [by econstructor|]. by split.
    + right. right. exists [], place, ps, e, g, g1.
      split; [done|]. split; [constructor|]. split; [done|].
      simpl. unfold bind. by rewrite Hplace.
Qed.

(** A turn of the current player [cur], who has no turn to skip, up to the
    loop over the places: the turn is counted and logged, [cur] rolls, and
    what is left of the turn is [k], given what the loop returns. *)
Lemma doTurn_rolls fuel g cur p roll g1 ps :
  py_getitem (players g) (currentPlayerOffset g) = Some cur →
  heap g !! cur = Some p →
  Player.turnsToSkip p ≤ 0 →
  d6 randint cur
    (set_log (log g ++ ["turn " +:+ pretty (totalTurns g + 1)])
       (set_totalTurns (totalTurns g + 1) g)) = Ok roll g1 →
  getCurrentPersistentEffectPlaces g1 = Ok ps g1 →
  doTurn randint set_iter call_effect call_persistent fuel g
  = (r <- persistent_loop call_persistent ps cur roll (py_set [cur]) false ;;
     (if negb r.2 then move cur roll else ret tt) ;;;
     w <- main_loop set_iter call_effect fuel r.1 ;;
     match w with
     | Some winner => ret (TurnWinner winner)
     | None =>
         lost <- everyoneLost ;;
         if lost then ret TurnFalse
         else _advanceCurrentPlayer ;;; ret TurnNone
     end) g1.
Proof.
  intros Hcur Hp Hskip Hroll Hps.
  unfold doTurn. unfold bind at 1, modify at 1. unfold bind at 1, gets at 1.
  unfold bind at 1, logging_info at 1, modify at 1.
  unfold bind at 1, getCurrentTurnPlayer at 1.
  unfold bind at 1, gets at 1. unfold bind at 1, gets at 1. simpl.
  rewrite Hcur. simpl. unfold bind at 1, deref at 1. simpl. rewrite Hp.
  destruct (Z.gtb_spec (Player.turnsToSkip p) 0) as [Hgt|_]; [lia|].
  unfold roll_and_move. unfold bind at 1. unfold bind at 1. rewrite Hroll.
  unfold bind at 1. rewrite Hps. unfold bind at 1. unfold bind at 5.
  destruct (persistent_loop _ _ _ _ _ _ g1) as [[mv act] g2|e g2]; [|done].
  simpl. unfold bind, ret. destruct act; simpl; [reflexivity|].
  by destruct (move cur roll g2).
Qed.

(** C6: in a turn ([doTurn]) of the current turn player [cur], who has no
    turn to skip and rolls [roll], the places to check are gone through in
    order, each with [cur] and [roll], and at most one persistent effect
    activates.  Either the places before some place reported no
    activation and that place's effect reported one: the places after it
    are not tried, the engine moves nobody, and the turn goes on with the
    main loop over the set of the players that effect returned, from the
    state that effect left.  Or every place reported no activation: [cur]
    then moves by [roll] and the turn goes on with the main loop over
    [cur] alone.  Or the effect of a place raised, and so does the turn. *)
Theorem one_persistent_effect_per_turn fuel g cur p roll g1 ps :
  let rest := λ movedPlayers,
    w <- main_loop set_iter call_effect fuel movedPlayers ;;
    match w with
    | Some winner => ret (TurnWinner winner)
    | None =>
        lost <- everyoneLost ;;
        if lost then ret TurnFalse
        else _advanceCurrentPlayer ;;; ret TurnNone
    end in
  py_getitem (players g) (currentPlayerOffset g) = Some cur →
  heap g !! cur = Some p →
  Player.turnsToSkip p ≤ 0 →
  d6 randint cur
    (set_log (log g ++ ["turn " +:+ pretty (totalTurns g + 1)])
       (set_totalTurns (totalTurns g + 1) g)) = Ok roll g1 →
  getCurrentPersistentEffectPlaces g1 = Ok ps g1 →
  (∃ pre place post l g2 g3,
      ps = pre ++ place :: post
      ∧ untriggered call_persistent cur roll pre g1 g2
      ∧ executePersistentEffect call_persistent place cur roll g2
        = Ok (l, true) g3
      ∧ doTurn randint set_iter call_effect call_persistent fuel g
        = rest (py_set l) g3)
  ∨ (∃ g2,
      untriggered call_persistent cur roll ps g1 g2
      ∧ doTurn randint set_iter call_effect call_persistent fuel g
        = (move cur roll ;;; rest [cur]) g2)
  ∨ (∃ pre place post e g2 g3,
      ps = pre ++ place :: post
      ∧ untriggered call_persistent cur roll pre g1 g2
      ∧ executePersistentEffect call_persistent place cur roll g2
        = Raise e g3
      ∧ doTurn randint set_iter call_effect call_persistent fuel g
        = Raise e g3).
Proof.
  intros rest Hcur Hp Hskip Hroll Hps.
  pose proof (doTurn_rolls fuel g cur p roll g1 ps Hcur Hp Hskip Hroll Hps)
    as Hturn.
  unfold bind at 1 in Hturn.
  destruct (persistent_loop_outcomes ps cur roll (py_set [cur]) g1)
    as [(pre & pl & post & l & g2 & g3 & Hsplit & Hpre & Hpl & Hloop)
       |[(g2 & Hall & Hloop)
        |(pre & pl & post & e & g2 & g3 & Hsplit & Hpre & Hpl & Hloop)]];
    rewrite Hloop in Hturn.
  - left. exists pre, pl, post, l, g2, g3. by repeat split.
  - right. left. exists g2. by split.
  - right. right. exists pre, pl, post, e, g2, g3. by repeat split.
Qed.

(** C7, as the code has it: in a turn ([doTurn]) of the current turn
    player [cur], who has no turn to skip and rolls [roll], and in which
    the loop over the places ends with no persistent effect activated, the
    list of places gone through has one entry for each player of the roster
    that stands on a place with a persistent effect, in roster order; the
    persistent effect of every entry is executed once, in that order, with
    [cur] and [roll]; and the turn goes on from the state they left with
    the move of [cur] by [roll] and the main loop over [cur] alone.  A
    place hosting [k] players is thus served [k] times. *)
Theorem persistent_effect_once_per_occupant fuel g cur p roll g1 ps moved g2 :
  let rest := λ movedPlayers,
    w <- main_loop set_iter call_effect fuel movedPlayers ;;
    match w with
    | Some winner => ret (TurnWinner winner)
    | None =>
        lost <- everyoneLost ;;
        if lost then ret TurnFalse
        else _advanceCurrentPlayer ;;; ret TurnNone
    end in
  py_getitem (players g) (currentPlayerOffset g) = Some cur →
  heap g !! cur = Some p →
  Player.turnsToSkip p ≤ 0 →
  d6 randint cur
    (set_log (log g ++ ["turn " +:+ pretty (totalTurns g + 1)])
       (set_totalTurns (totalTurns g + 1) g)) = Ok roll g1 →
  getCurrentPersistentEffectPlaces g1 = Ok ps g1 →
  persistent_loop call_persistent ps cur roll (py_set [cur]) false g1
  = Ok (moved, false) g2 →
  Forall2 (λ q place, getCurrentPlace q g1 = Ok place g1)
    (filter (λ q, on_persistent_place g1 q = true) (players g1)) ps
  ∧ untriggered call_persistent cur roll ps g1 g2
  ∧ moved = [cur]
  ∧ doTurn randint set_iter call_effect call_persistent fuel g
    = (move cur roll ;;; rest [cur]) g2.
Proof.
  intros rest Hcur Hp Hskip Hroll Hps Hloop.
  split; [|split; [|split]].
  - unfold getCurrentPersistentEffectPlaces in Hps.
    inv_run Hps. inv_run Hrun.
    by apply persistentEffectPlaces_of_players.
  - by destruct (persistent_loop_cases _ _ _ _ _ _ _ Hloop)
      as [(? & ? & ? & ? & ? & _ & _ & _ & [=])|[? _]].
  - by destruct (persistent_loop_cases _ _ _ _ _ _ _ Hloop)
      as [(? & ? & ? & ? & ? & _ & _ & _ & [=])|[_ [= ->]]].
  - pose proof (doTurn_rolls fuel g cur p roll g1 ps Hcur Hp Hskip Hroll Hps)
      as Hturn.
    unfold bind at 1 in Hturn. rewrite Hloop in Hturn.
    by destruct (persistent_loop_cases _ _ _ _ _ _ _ Hloop)
      as [(? & ? & ? & ? & ? & _ & _ & _ & [=])|[_ [= ->]]].
Qed.

End TurnFacts.

(** A turn in which a persistent effect activates: A on place 1 and B on
    place 6, A rolls a 2. *)
Lemma one_persistent_effect_per_turn_witness :
  let g := board_game [2] [Player.mk 0 "A" 1 1 0; Player.mk 1 "B" 6 6 0] 0 in
  let p := Player.mk 0 "A" 1 1 0 in
  let g0 := set_log (log g ++ ["turn " +:+ pretty (totalTurns g + 1)])
              (set_totalTurns (totalTurns g + 1) g) in
  let g1 := state_of (d6 replay_randint 0 g0) in
  let place_6 := Place.mk 6 None (Some effect_6_persistent)
                   (Some "If anyone rolls a 2, everyone goes back two spaces") in
  let rest := λ movedPlayers,
    w <- main_loop (λ s, s) dog_effect 10 movedPlayers ;;
    match w with
    | Some winner => ret (TurnWinner winner)
    | None =>
        lost <- everyoneLost ;;
        if lost then ret TurnFalse
        else _advanceCurrentPlayer ;;; ret TurnNone
    end in
  (py_getitem (players g) (currentPlayerOffset g) = Some 0
   ∧ heap g !! 0 = Some p
   ∧ Player.turnsToSkip p ≤ 0
   ∧ d6 replay_randint 0 g0 = Ok 2 g1
   ∧ getCurrentPersistentEffectPlaces g1 = Ok [place_6] g1)
  ∧ ((∃ pre place post l g2 g3,
         [place_6] = pre ++ place :: post
         ∧ untriggered dog_persistent 0 2 pre g1 g2
         ∧ executePersistentEffect dog_persistent place 0 2 g2
           = Ok (l, true) g3
         ∧ dog_doTurn 10 g = rest (py_set l) g3)
     ∨ (∃ g2,
         untriggered dog_persistent 0 2 [place_6] g1 g2
         ∧ dog_doTurn 10 g = (move 0 2 ;;; rest [0]) g2)
     ∨ (∃ pre place post e g2 g3,
         [place_6] = pre ++ place :: post
         ∧ untriggered dog_persistent 0 2 pre g1 g2
         ∧ executePersistentEffect dog_persistent place 0 2 g2 = Raise e g3
         ∧ dog_doTurn 10 g = Raise e g3)).
Proof.
  intros g p g0 g1 place_6 rest.
  assert (py_getitem (players g) (currentPlayerOffset g) = Some 0) as Hcur
    by reflexivity.
  assert (heap g !! 0 = Some p) as Hp by reflexivity.
  assert (Player.turnsToSkip p ≤ 0) as Hskip by (simpl; lia).
  assert (d6 replay_randint 0 g0 = Ok 2 g1) as Hroll
    by (vm_compute; reflexivity).
  assert (getCurrentPersistentEffectPlaces g1 = Ok [place_6] g1) as Hps
    by (vm_compute; reflexivity).
  split; [by repeat split|].
  exact (one_persistent_effect_per_turn replay_randint (λ s, s) dog_effect
           dog_persistent 10 g 0 p 2 g1 [place_6] Hcur Hp Hskip Hroll Hps).
Defined.

(** C7, as the specification words it, fails: with A and B both on place 6 and a roll
    of 1, no persistent effect activates and the effect of place 6 is
    executed twice, once for A and once for B. *)
Lemma two_players_on_one_place :
  let g := board_game [] [Player.mk 0 "A" 6 6 0; Player.mk 1 "B" 6 6 0] 0 in
  let place_6 := Place.mk 6 None (Some effect_6_persistent)
                   (Some "If anyone rolls a 2, everyone goes back two spaces") in
  getCurrentPersistentEffectPlaces g = Ok [place_6; place_6] g
  ∧ untriggered dog_persistent 0 1 [place_6; place_6] g g
  ∧ ¬ once_per_occupied_place g.
Proof.
  intros g place_6.
  assert (getCurrentPersistentEffectPlaces g = Ok [place_6; place_6] g) as Hps
    by (vm_compute; reflexivity).
  split; [done|]. split.
  - apply untriggered_cons with (l := []) (g1 := g); [vm_compute; reflexivity|].
    apply untriggered_cons with (l := []) (g1 := g); [vm_compute; reflexivity|].
    constructor.
  - intros Honce. specialize (Honce _ Hps). simpl in Honce.
    apply NoDup_cons in Honce as [Hin _]. apply Hin. left.
Qed.

(** The same turn, for the statement the code satisfies: A rolls a 1. *)
Lemma persistent_effect_once_per_occupant_witness :
  let g := board_game [] [Player.mk 0 "A" 6 6 0; Player.mk 1 "B" 6 6 0] 0 in
  let p := Player.mk 0 "A" 6 6 0 in
  let g0 := set_log (log g ++ ["turn " +:+ pretty (totalTurns g + 1)])
              (set_totalTurns (totalTurns g + 1) g) in
  let g1 := state_of (d6 replay_randint 0 g0) in
  let place_6 := Place.mk 6 None (Some effect_6_persistent)
                   (Some "If anyone rolls a 2, everyone goes back two spaces") in
  let rest := λ movedPlayers,
    w <- main_loop (λ s, s) dog_effect 10 movedPlayers ;;
    match w with
    | Some winner => ret (TurnWinner winner)
    | None =>
        lost <- everyoneLost ;;
        if lost then ret TurnFalse
        else _advanceCurrentPlayer ;;; ret TurnNone
    end in
  (py_getitem (players g) (currentPlayerOffset g) = Some 0
   ∧ heap g !! 0 = Some p
   ∧ Player.turnsToSkip p ≤ 0
   ∧ d6 replay_randint 0 g0 = Ok 1 g1
   ∧ getCurrentPersistentEffectPlaces g1 = Ok [place_6; place_6] g1
   ∧ persistent_loop dog_persistent [place_6; place_6] 0 1 (py_set [0]) false g1
     = Ok ([0], false) g1)
  ∧ (Forall2 (λ q place, getCurrentPlace q g1 = Ok place g1)
       (filter (λ q, on_persistent_place g1 q = true) (players g1))
       [place_6; place_6]
     ∧ untriggered dog_persistent 0 1 [place_6; place_6] g1 g1
     ∧ [0] = [0]
     ∧ dog_doTurn 10 g = (move 0 1 ;;; rest [0]) g1).
Proof.
  intros g p g0 g1 place_6 rest.
  assert (py_getitem (players g) (currentPlayerOffset g) = Some 0) as Hcur
    by reflexivity.
  assert (heap g !! 0 = Some p) as Hp by reflexivity.
  assert (Player.turnsToSkip p ≤ 0) as Hskip by (simpl; lia).
  assert (d6 replay_randint 0 g0 = Ok 1 g1) as Hroll
    by (vm_compute; reflexivity).
  assert (getCurrentPersistentEffectPlaces g1 = Ok [place_6; place_6] g1)
    as Hps by (vm_compute; reflexivity).
  assert (persistent_loop dog_persistent [place_6; place_6] 0 1 (py_set [0])
            false g1 = Ok ([0], false) g1) as Hloop
    by (vm_compute; reflexivity).
  split; [by repeat split|].
  exact (persistent_effect_once_per_occupant replay_randint (λ s, s) dog_effect
           dog_persistent 10 g 0 p 1 g1 [place_6; place_6] [0] g1
           Hcur Hp Hskip Hroll Hps Hloop).
Defined.

(** ** Nothing replaces the board *)

Create HintDb keeps discriminated.

Section KeepsPlaces.
Context {RNG EF PEF : Type}.
Lemma keeps_ret {A} (a : A) : keeps_places (ret a : M (Game RNG EF PEF) A).
Proof. by intros g. Qed.

Lemma keeps_raise {A} e : keeps_places (raise e : M (Game RNG EF PEF) A).
Proof. by intros g. Qed.

Lemma keeps_gets {A} (f : (Game RNG EF PEF) → A) : keeps_places (gets f).
Proof. by intros g. Qed.

Lemma keeps_modify (f : (Game RNG EF PEF) → (Game RNG EF PEF)) :
  (∀ g, places (f g) = places g) → keeps_places (modify f).
Proof. intros Hf g. apply Hf. Qed.

Lemma keeps_bind {A B} (m : M (Game RNG EF PEF) A) (k : A → M (Game RNG EF PEF) B) :
  keeps_places m → (∀ a, keeps_places (k a)) → keeps_places (bind m k).
Proof.
  intros Hm Hk g. unfold bind. specialize (Hm g).
  destruct (m g) as [a g1|e g1]; simpl in *; [|done].
  by rewrite (Hk a g1).
Qed.

Lemma keeps_of_option {A} e (o : option A) : keeps_places (of_option e o : M (Game RNG EF PEF) A).
Proof. destruct o; [apply keeps_ret|apply keeps_raise]. Qed.

Lemma keeps_py_mod a b : keeps_places (py_mod a b : M (Game RNG EF PEF) Z).
Proof. unfold py_mod. destruct (decide _); [apply keeps_raise|apply keeps_ret]. Qed.

Lemma keeps_for_each {A} (l : list A) (body : A → M (Game RNG EF PEF) unit) :
  (∀ x, keeps_places (body x)) → keeps_places (for_each l body).
Proof.
  intros Hb. induction l as [|x l IH]; simpl; [apply keeps_ret|].
  apply keeps_bind; [apply Hb|by intros _].
Qed.

Lemma keeps_comprehension {A B} (l : list A) (f : A → M (Game RNG EF PEF) B) :
  (∀ x, keeps_places (f x)) → keeps_places (comprehension l f).
Proof.
  intros Hf. induction l as [|x l IH]; simpl; [apply keeps_ret|].
  apply keeps_bind; [apply Hf|intros y].
  apply keeps_bind; [apply IH|intros ys]. apply keeps_ret.
Qed.

Lemma keeps_comprehension_if {A} (l : list A) (c : A → M (Game RNG EF PEF) bool) :
  (∀ x, keeps_places (c x)) → keeps_places (comprehension_if l c).
Proof.
  intros Hc. induction l as [|x l IH]; simpl; [apply keeps_ret|].
  apply keeps_bind; [apply Hc|intros b].
  apply keeps_bind; [apply IH|intros ys]. apply keeps_ret.
Qed.

Lemma keeps_deref self : keeps_places (deref self : M (Game RNG EF PEF) Player.t).
Proof. intros g. unfold deref. by destruct (heap g !! self). Qed.

(** From a call that returned to the board it left. *)
Lemma keeps_Ok {A} (m : M (Game RNG EF PEF) A) g a g' :
  keeps_places m → m g = Ok a g' → places g' = places g.
Proof. intros Hm Hr. specialize (Hm g). by rewrite Hr in Hm. Qed.

End KeepsPlaces.

#[export] Hint Resolve keeps_ret keeps_raise keeps_gets keeps_of_option
  keeps_py_mod keeps_deref : keeps.

(** Go through a body call by call. *)
Ltac keeps :=
  repeat first
    [ solve [auto with keeps]
    | match goal with |- ∀ _, _ => intro end
    | apply keeps_for_each
    | apply keeps_comprehension
    | apply keeps_comprehension_if
    | apply keeps_modify; intros ?; reflexivity
    | match goal with
      | |- keeps_places (match ?x with _ => _ end) => destruct x
      end
    | apply keeps_bind ].

Section KeepsPlacesEngine.
Context {RNG EF PEF : Type}.
Context (randint : Z → Z → RNG → Z * RNG).
Context (getrandbits : Z → RNG → Z * RNG).
Lemma keeps_store self p : keeps_places (store self p : M (Game RNG EF PEF) unit).
Proof. unfold store. keeps. Qed.

Lemma keeps_logging_info msg : keeps_places (logging_info msg : M (Game RNG EF PEF) unit).
Proof. unfold logging_info. keeps. Qed.

Hint Resolve keeps_store keeps_logging_info : keeps.

Lemma keeps_getCurrentPlace self :
  keeps_places (getCurrentPlace self : M (Game RNG EF PEF) _).
Proof. unfold getCurrentPlace. keeps. Qed.

Lemma keeps_showPlayer self : keeps_places (showPlayer self : M (Game RNG EF PEF) _).
Proof. unfold showPlayer. keeps. Qed.

Hint Resolve keeps_getCurrentPlace keeps_showPlayer : keeps.

Lemma keeps_move self step : keeps_places (move self step : M (Game RNG EF PEF) _).
Proof. unfold move. keeps. Qed.

Lemma keeps_d6 player : keeps_places (d6 randint player : M (Game RNG EF PEF) _).
Proof. unfold d6. keeps. Qed.

Lemma keeps_coin player : keeps_places (coin getrandbits player : M (Game RNG EF PEF) _).
Proof. unfold coin. keeps. Qed.

Lemma keeps_getPlayersInPlace place :
  keeps_places (getPlayersInPlace place : M (Game RNG EF PEF) _).
Proof. unfold getPlayersInPlace. keeps. Qed.

Lemma keeps__rewindCurrentPlayer : keeps_places (_rewindCurrentPlayer : M (Game RNG EF PEF) _).
Proof. unfold _rewindCurrentPlayer, _lastPlayerOffset. keeps. Qed.

Lemma keeps__nextPlayerOffset : keeps_places (_nextPlayerOffset : M (Game RNG EF PEF) _).
Proof. unfold _nextPlayerOffset. keeps. Qed.

Lemma keeps__advanceCurrentPlayer : keeps_places (_advanceCurrentPlayer : M (Game RNG EF PEF) _).
Proof. unfold _advanceCurrentPlayer, _nextPlayerOffset. keeps. Qed.

Lemma keeps_players_pop i : keeps_places (players_pop i : M (Game RNG EF PEF) _).
Proof. unfold players_pop. keeps. Qed.

Hint Resolve keeps__rewindCurrentPlayer keeps__nextPlayerOffset
  keeps_players_pop : keeps.

Lemma keeps_losePlayer player : keeps_places (losePlayer player : M (Game RNG EF PEF) _).
Proof. unfold losePlayer. keeps. Qed.

Lemma keeps_getCurrentPersistentEffectPlaces :
  keeps_places (getCurrentPersistentEffectPlaces : M (Game RNG EF PEF) _).
Proof.
  intros g. destruct (getCurrentPersistentEffectPlaces g) as [ps g'|e g'] eqn:H.
  - by apply getCurrentPersistentEffectPlaces_reads in H as ->.
  - revert H. unfold getCurrentPersistentEffectPlaces, bind, gets. simpl.
    generalize (players g). intros l. revert e g'.
    induction l as [|p l IH]; intros e g' H; simpl in H; [done|].
    unfold bind in H.
    destruct (getCurrentPlace p g) as [c g1|e1 g1] eqn:Hc.
    + apply getCurrentPlace_reads in Hc as ->.
      destruct (hasPersistentEffect c).
      * destruct (getCurrentPlace p g) as [c' g1|e1 g1] eqn:Hc'.
        -- apply getCurrentPlace_reads in Hc' as ->.
           destruct (persistentEffectPlaces_of l g) eqn:Hl; [done|].
           injection H as <- <-. by eapply IH.
        -- injection H as <- <-.
           pose proof (keeps_getCurrentPlace p g) as Hk. by rewrite Hc' in Hk.
      * by eapply IH.
    + injection H as <- <-.
      pose proof (keeps_getCurrentPlace p g) as Hk. by rewrite Hc in Hk.
Qed.

End KeepsPlacesEngine.

#[export] Hint Resolve keeps_store keeps_logging_info keeps_getCurrentPlace
  keeps_showPlayer keeps_move keeps_d6 keeps_coin keeps_getPlayersInPlace
  keeps__rewindCurrentPlayer keeps__nextPlayerOffset
  keeps__advanceCurrentPlayer keeps_players_pop keeps_losePlayer
  keeps_getCurrentPersistentEffectPlaces : keeps.

(** ** Winning *)

Section CatalogueFacts.
Context {RNG : Type}.
Context (randint : Z → Z → RNG → Z * RNG).
Context (getrandbits : Z → RNG → Z * RNG).
Implicit Types (g : (Game RNG EffectFunc PersistentEffectFunc)) (place : Place.t EffectFunc PersistentEffectFunc).

Lemma keeps_effect_48_loop rolls myRoll player :
  keeps_places (effect_48_loop rolls myRoll player : M (Game RNG EffectFunc PersistentEffectFunc) _).
Proof. induction rolls as [|o rolls IH]; simpl; keeps. Qed.

Lemma keeps_call_effect f place player :
  keeps_places (call_effect randint getrandbits f place player).
Proof.
  destruct f; simpl;
    unfold do_effect_4, do_effect_9, do_effect_13, do_effect_18,
      do_effect_23, do_effect_25, do_effect_31, do_effect_33, do_effect_40,
      do_effect_44, do_effect_45, do_effect_46, do_effect_47, do_effect_48;
    keeps.
  apply keeps_effect_48_loop.
Qed.

Lemma keeps_call_persistent f place player roll :
  keeps_places (call_persistent f place player roll : M (Game RNG EffectFunc PersistentEffectFunc) _).
Proof.
  destruct f; simpl;
    unfold ifAnyoneRollsN, do_effect_15_persistent, do_effect_20_persistent,
      getPlayers;
    keeps.
Qed.

(** The loop of [effect_48] returns a winner only when it runs through
    all the other rolls, each below [myRoll]; it touches nothing then. *)
Lemma effect_48_loop_winner rolls myRoll player g w g' :
  effect_48_loop rolls myRoll player g = Ok (Winner w) g' →
  Forall (λ o, o < myRoll) rolls ∧ w = player ∧ g' = g.
Proof.
  induction rolls as [|o rolls IH]; simpl; intros H.
  - inv_run H. injection Hrun as ->. by split.
  - destruct (Z.leb_spec myRoll o).
    + inv_bind H as u g1 Hmove H. by inv_run H.
    + destruct (IH H) as (? & ? & ?). split; [|done]. by constructor.
Qed.

Lemma effect_48_loop_wins rolls myRoll player g :
  Forall (λ o, o < myRoll) rolls →
  effect_48_loop rolls myRoll player g = Ok (Winner player) g.
Proof.
  induction 1 as [|o rolls Ho _ IH]; simpl; [done|].
  destruct (Z.leb_spec myRoll o); [lia|done].
Qed.

(** [effect_48] returns a winner exactly when the roll of the player on
    the place is above the roll of every other player of the roster; the
    winner is that player. *)
Lemma effect_48_winner_iff place player g w g' :
  do_effect_48 randint place player g = Ok (Winner w) g'
  ↔ w = player
    ∧ ∃ otherRolls g1 myRoll,
        comprehension (filter (λ p, p ≠ player) (players g)) (d6 randint) g
          = Ok otherRolls g1
        ∧ d6 randint player g1 = Ok myRoll g'
        ∧ Forall (λ o, o < myRoll) otherRolls.
Proof.
  unfold do_effect_48. split.
  - intros H. inv_bind H as ps g0 Hps H. inv_run Hps.
    inv_bind H as otherRolls g1 Hothers H.
    inv_bind H as myRoll g2 Hmy H.
    destruct (effect_48_loop_winner _ _ _ _ _ _ H) as (Hall & -> & ->).
    split; [done|]. eauto 10.
  - intros (-> & otherRolls & g1 & myRoll & Hothers & Hmy & Hall).
    unfold bind at 1. simpl. unfold bind at 1. rewrite Hothers.
    unfold bind at 1. rewrite Hmy. by apply effect_48_loop_wins.
Qed.

(** No other effect of the catalogue returns a winner. *)
Lemma call_effect_winner f place player g w g' :
  call_effect randint getrandbits f place player g = Ok (Winner w) g' →
  f = effect_48 ∧ w = player.
Proof.
  destruct f; simpl; intros H;
    try (split; [reflexivity|];
         by apply effect_48_winner_iff in H as [-> _]);
    exfalso; revert H;
    unfold do_effect_4, do_effect_9, do_effect_13, do_effect_18,
      do_effect_23, do_effect_25, do_effect_31, do_effect_33, do_effect_40,
      do_effect_44, do_effect_45, do_effect_46, do_effect_47;
    intros H;
    repeat match goal with
      | H : bind _ _ _ = Ok _ _ |- _ =>
          let a := fresh "a" in let s := fresh "s" in
          let H1 := fresh "H" in let H2 := fresh "H" in
          apply bind_Ok in H; destruct H as (a & s & H1 & H2)
      | H : (if ?b then _ else _) _ = Ok _ _ |- _ => destruct b
      | H : ret _ _ = Ok _ _ |- _ => by inversion H
      end.
Qed.

End CatalogueFacts.

Section WinnerOrigin.
Context {RNG EF PEF : Type}.
Context (randint : Z → Z → RNG → Z * RNG).
Context (set_iter : list Z → list Z).
Context (call_effect : EF → Place.t EF PEF → Z → M (Game RNG EF PEF) EffectResult).
Context (call_persistent :
           PEF → Place.t EF PEF → Z → Z → M (Game RNG EF PEF) PersistentEffectResult).
Hypothesis keeps_effects : ∀ f place p, keeps_places (call_effect f place p).
Hypothesis keeps_persistents :
  ∀ f place p roll, keeps_places (call_persistent f place p roll).
Implicit Types (g : Game RNG EF PEF).

Lemma keeps_executeEffect place p :
  keeps_places (executeEffect call_effect place p).
Proof. unfold executeEffect. keeps. Qed.

Lemma keeps_executePersistentEffect place p roll :
  keeps_places (executePersistentEffect call_persistent place p roll).
Proof. unfold executePersistentEffect. keeps. Qed.

Lemma keeps_persistent_loop ps cur roll mp act :
  keeps_places (persistent_loop call_persistent ps cur roll mp act).
Proof.
  revert mp act. induction ps as [|place ps IH]; intros mp act; simpl.
  - keeps.
  - apply keeps_bind; [apply keeps_executePersistentEffect|].
    intros [l [|]]; [keeps|apply IH].
Qed.

Lemma keeps_roll_and_move cur :
  keeps_places (roll_and_move randint call_persistent cur).
Proof. unfold roll_and_move. keeps. apply keeps_persistent_loop. Qed.

Lemma keeps_moved_loop mps acc :
  keeps_places (moved_loop call_effect mps acc).
Proof.
  revert acc. induction mps as [|mp mps IH]; intros acc; simpl.
  - keeps.
  - apply keeps_bind; [keeps|]. intros place.
    destruct (hasEffect place); [|apply IH].
    apply keeps_bind; [apply keeps_executeEffect|].
    intros [l|w]; [apply IH|keeps].
Qed.

(** A winner that comes out of the loop over the moved players was
    returned by the effect of the place some moved player stands on, and
    the loop returned at once with the state that effect left. *)
Lemma moved_loop_winner mps acc g w g' :
  moved_loop call_effect mps acc g = Ok (inl w) g' →
  ∃ mp place g1,
    getCurrentPlace mp g1 = Ok place g1
    ∧ executeEffect call_effect place mp g1 = Ok (Winner w) g'
    ∧ places g1 = places g.
Proof.
  revert acc g. induction mps as [|mp mps IH]; intros acc g H; simpl in H.
  - by inv_run H.
  - inv_bind H as place g1 Hplace H.
    pose proof (getCurrentPlace_reads _ _ _ _ Hplace) as ->.
    destruct (hasEffect place).
    + inv_bind H as moved g2 Heffect H. destruct moved as [l|w'].
      * destruct (IH _ _ H) as (mp' & place' & g3 & ? & ? & Hpl).
        exists mp', place', g3. repeat split; [done..|].
        rewrite Hpl. eapply keeps_Ok; [|done]. apply keeps_executeEffect.
      * inv_run H. injection Hrun as ->. eauto 10.
    + destruct (IH _ _ H) as (mp' & place' & g3 & ? & ? & Hpl). eauto 10.
Qed.

Lemma main_loop_winner fuel mps g w g' :
  main_loop set_iter call_effect fuel mps g = Ok (Some w) g' →
  ∃ mp place g1,
    getCurrentPlace mp g1 = Ok place g1
    ∧ executeEffect call_effect place mp g1 = Ok (Winner w) g'
    ∧ places g1 = places g.
Proof.
  revert mps g. induction fuel as [|fuel IH]; intros mps g H; simpl in H.
  - destruct (bool_decide _); [done|by inv_run H].
  - destruct (bool_decide _); [|by inv_run H].
    inv_bind H as r g1 Hlayer H. destruct r as [w'|new].
    + inv_run H. injection Hrun as ->. by eapply moved_loop_winner.
    + destruct (IH _ _ H) as (mp & place & g2 & ? & ? & Hpl).
      exists mp, place, g2. repeat split; [done..|].
      rewrite Hpl. eapply keeps_Ok; [|done]. apply keeps_moved_loop.
Qed.

(** A turn that returns a winner got it from the effect of a place of
    the board the turn started with. *)
Lemma doTurn_winner fuel g w g' :
  doTurn randint set_iter call_effect call_persistent fuel g
    = Ok (TurnWinner w) g' →
  ∃ mp place g1,
    getCurrentPlace mp g1 = Ok place g1
    ∧ executeEffect call_effect place mp g1 = Ok (Winner w) g'
    ∧ places g1 = places g.
Proof.
  unfold doTurn. intros H.
  inv_bind H as u0 g1 H1 H. injection H1 as _ <-.
  inv_bind H as n g2 H2 H. inv_run H2.
  inv_bind H as u1 g3 H3 H.
  apply (keeps_Ok _ _ _ _ (keeps_logging_info _)) in H3.
  inv_bind H as cur g4 H4 H.
  assert (places g4 = places g3) as Hp4.
  { eapply keeps_Ok; [|done]. unfold getCurrentTurnPlayer. keeps. }
  inv_bind H as p g5 H5 H.
  apply (keeps_Ok _ _ _ _ (keeps_deref _)) in H5.
  destruct (_ >? _).
  - inv_bind H as u2 g6 H6 H. inv_bind H as u3 g7 H7 H. by inv_run H.
  - inv_bind H as moved g6 H6 H.
    apply (keeps_Ok _ _ _ _ (keeps_roll_and_move _)) in H6.
    inv_bind H as r g7 H7 H. destruct r as [w'|].
    + inv_run H. injection Hrun as ->.
      destruct (main_loop_winner _ _ _ _ _ H7) as (mp & place & g8 & ? & ? & Hpl).
      exists mp, place, g8. repeat split; [done..|]. simpl in *. congruence.
    + inv_bind H as lost g8 H8 H.
      destruct lost; [by inv_run H|].
      inv_bind H as u4 g9 H9 H. by inv_run H.
Qed.

End WinnerOrigin.

Lemma py_getitem_elem_of {A} (l : list A) (i : Z) (x : A) :
  py_getitem l i = Some x → x ∈ l.
Proof.
  unfold py_getitem. repeat case_decide; [..|done];
    intros Hl; by eapply list_elem_of_lookup_2.
Qed.

(** [newGame] lays out [BOARD] as [board_places]. *)
Lemma newGame_places {RNG} (Random : Z → RNG) log0 seed names :
  places (newGame Random log0 seed names BOARD) = board_places.
Proof. reflexivity. Qed.

(** On [BOARD], [effect_48] sits on place 48 and nowhere else. *)
Lemma board_places_effect_48 :
  Forall (λ place, Place.effect place = Some effect_48 → Place.id place = 48)
    board_places.
Proof.
  unfold board_places, BOARD, BLANK. simpl.
  repeat (constructor; [simpl; intros H; first [discriminate H|reflexivity]|]).
  constructor.
Qed.

Section Winning.
Context {RNG : Type}.
Context (randint : Z → Z → RNG → Z * RNG).
Context (getrandbits : Z → RNG → Z * RNG).
Context (set_iter : list Z → list Z).

(** C10: (1) an effect of the catalogue that returns a winner is
    [effect_48], and the winner is the player it was called for; (2)
    [effect_48] returns a winner exactly when the roll it draws for that
    player is above the rolls it draws for all the other players of the
    roster, which is so when there is no other player; (3) on [BOARD], a
    turn that returns a winner got it from [effect_48], called for the
    winner, who stands on place 48. *)
Theorem win_only_by_effect_48 :
  (∀ f place player (g : Game RNG EffectFunc PersistentEffectFunc) w g',
      call_effect randint getrandbits f place player g = Ok (Winner w) g' →
      f = effect_48 ∧ w = player)
  ∧ (∀ place player (g : Game RNG EffectFunc PersistentEffectFunc) w g',
      do_effect_48 randint place player g = Ok (Winner w) g'
      ↔ w = player
        ∧ ∃ otherRolls g1 myRoll,
            comprehension (filter (λ p, p ≠ player) (players g)) (d6 randint) g
              = Ok otherRolls g1
            ∧ d6 randint player g1 = Ok myRoll g'
            ∧ Forall (λ o, o < myRoll) otherRolls)
  ∧ (∀ fuel (g : Game RNG EffectFunc PersistentEffectFunc) w g',
      places g = board_places →
      doTurn randint set_iter (call_effect randint getrandbits)
        call_persistent fuel g = Ok (TurnWinner w) g' →
      ∃ place g1,
        getCurrentPlace w g1 = Ok place g1
        ∧ Place.id place = 48
        ∧ Place.effect place = Some effect_48
        ∧ do_effect_48 randint place w g1 = Ok (Winner w) g').
Proof.
  split; [apply call_effect_winner|]. split; [apply effect_48_winner_iff|].
  intros fuel g w g' Hboard Hturn.
  apply doTurn_winner in Hturn
      as (mp & place & g1 & Hplace & Heffect & Hplaces);
    [|apply keeps_call_effect|apply keeps_call_persistent].
  unfold executeEffect in Heffect.
  destruct (Place.effect place) as [f|] eqn:Hf; [|done].
  destruct (call_effect_winner _ _ _ _ _ _ _ _ Heffect) as [-> ->].
  exists place, g1. repeat split; [done| |done..].
  assert (place ∈ board_places) as Hin.
  { rewrite <- Hboard, <- Hplaces.
    unfold getCurrentPlace in Hplace.
    inv_bind Hplace as p g2 Hp Hplace. inv_bind Hplace as ps g3 Hps Hplace.
    inv_run Hps. inv_run Hplace. by eapply py_getitem_elem_of. }
  pose proof board_places_effect_48 as Hall.
  rewrite Forall_forall in Hall. by apply Hall.
Qed.

End Winning.

(** A turn that is won: A stands on place 42 and B on place 10; A rolls a
    6, and on place 48 B rolls a 3 and A a 5. *)
Lemma win_only_by_effect_48_witness :
  let g := board_game [6; 3; 5]
             [Player.mk 0 "A" 42 42 0; Player.mk 1 "B" 10 10 0] 0 in
  let r := dog_doTurn 10 g in
  r = Ok (TurnWinner 0) (state_of r)
  ∧ ∃ place g1,
      getCurrentPlace 0 g1 = Ok place g1
      ∧ Place.id place = 48
      ∧ Place.effect place = Some effect_48
      ∧ do_effect_48 replay_randint place 0 g1 = Ok (Winner 0) (state_of r).
Proof.
  intros g r. split; [vm_compute; reflexivity|].
  destruct (win_only_by_effect_48 replay_randint replay_getrandbits (λ s, s))
    as (_ & _ & Hturn).
  apply (Hturn 10%nat g); [reflexivity|vm_compute; reflexivity].
Defined.

(** ** What the log says of a lost player *)

(** [losePlayer] hands nothing to [logging.info]. *)
Lemma losePlayer_logs_nothing {RNG EF PEF} (g : Game RNG EF PEF) player :
  log (state_of (losePlayer player g)) = log g.
Proof.
  unfold losePlayer, _rewindCurrentPlayer, _lastPlayerOffset,
    _nextPlayerOffset, players_pop, py_mod, of_option, bind, ret, raise, gets,
    modify.
  simpl. repeat (case_match; simplify_eq/=; try done).
Qed.

(** C8 (code defect): A and B play.  On turn 15 A lands on place 40, rolls a
    2 and is lost; B goes on alone and wins on turn 17.  The records from
    turn 15 on are the ones below: none says that A has lost, and the
    script ends on the player stats with no record of the losers.  No
    record of the whole log has the words. *)
Theorem lost_player_is_not_reported :
  ∃ g, dog_main [5;5;6;6;6;6;4;4;6;6;6;1;1;1;5;6;6;1;2;4;6;3] 20 10 7 ["A"; "B"]
         = Ok tt g
       ∧ totalPlayers g = [0; 1]
       ∧ players g = [1]
       ∧ drop 46 (log g) =
           ["turn 15"; "die roll by A (0): 1";
            "A (0) moved 1 to place 40, message: Roll a die. If you roll an even number, you lose";
            "die roll by A (0): 2";
            "turn 16"; "die roll by B (1): 4"; "B (1) moved 4 to place 42";
            "turn 17"; "die roll by B (1): 6";
            "B (1) moved 6 to place 48, message: On your turn, everyone rolls a die. If you have the highest number, you win. If you tie for the highest or someone's roll beats yours, go back twenty spaces";
            "die roll by B (1): 3";
            "winner: B (1)";
            "total turns: 17";
            "player stats: " +:+ dumps_stats [(0, "A", 40, 40); (1, "B", 48, 48)]]
       ∧ forallb (λ record, negb (contains "has lost" record)
                            && negb (contains "losers:" record)) (log g) = true.
Proof. vm_compute. eexists. repeat split. Qed.

(** ** The order in which a set is walked *)

(** The records of a turn depend on the order in which [movedPlayers] is
    walked: A and B stand on place 6 and A rolls a 2, so both go back to
    place 4, whose effect sends each back 2 more; the two records of that
    come in the order of the walk. *)
Lemma set_order_shows_in_the_log :
  let g := board_game [2] [Player.mk 0 "A" 6 6 0; Player.mk 1 "B" 6 6 0] 0 in
  drop 4 (log (state_of (doTurn replay_randint (λ s, s)
                           dog_effect dog_persistent 10 g)))
    = ["A (0) moved -2 to place 2, message: pretty good";
       "B (1) moved -2 to place 2, message: pretty good"]
  ∧ drop 4 (log (state_of (doTurn replay_randint reverse
                             dog_effect dog_persistent 10 g)))
    = ["B (1) moved -2 to place 2, message: pretty good";
       "A (0) moved -2 to place 2, message: pretty good"].
Proof. vm_compute. done. Qed.

(** * Further properties *)

(** ** Player.move: what it touches and what it logs *)

Section MoveFrame.
Context {RNG EF PEF : Type}.
Implicit Types (g : Game RNG EF PEF) (p : Player.t).

(** X3: a move that returns changes nothing of the game but the player that
    moves, and of that player neither the id, nor the name, nor the turns
    to skip. *)
Theorem move_changes_only_the_mover g self step g' :
  move self step g = Ok tt g' →
  rng g' = rng g
  ∧ currentPlayerOffset g' = currentPlayerOffset g
  ∧ totalPlayers g' = totalPlayers g
  ∧ players g' = players g
  ∧ places g' = places g
  ∧ totalTurns g' = totalTurns g
  ∧ (∀ q, q ≠ self → heap g' !! q = heap g !! q)
  ∧ ∃ p p', heap g !! self = Some p
            ∧ heap g' !! self = Some p'
            ∧ Player.id p' = Player.id p
            ∧ Player.name p' = Player.name p
            ∧ Player.turnsToSkip p' = Player.turnsToSkip p.
Proof.
  unfold move, getCurrentPlace, deref, store, logging_info, of_option,
    bind, ret, raise, gets, modify.
  intros H.
  destruct (step >? 0); [|destruct (step <? 0)];
    destruct (heap g !! self) as [p|] eqn:Hp; simpl in H; try done;
    rewrite ?lookup_insert_eq in H; simpl in H;
    rewrite ?Hp in H; simpl in H;
    destruct (py_getitem _ _); simpl in H; try done;
    rewrite ?lookup_insert_eq in H; simpl in H; rewrite ?Hp in H;
    injection H as <-; simpl;
    repeat split; try done;
    first [ intros q Hq; by rewrite ?lookup_insert_ne by done
          | eexists _, _; rewrite ?lookup_insert_eq; by repeat split ].
Qed.

(** X4: a move that returns adds one record to the log.  The step the
    record gives is the distance between the place the player stood on and
    the place it stands on now, and the place it names is that place. *)
Theorem move_logs_the_displacement g self step g' :
  move self step g = Ok tt g' →
  ∃ p p' place,
    heap g !! self = Some p
    ∧ heap g' !! self = Some p'
    ∧ py_getitem (places g') (Player.currentPlace p') = Some place
    ∧ log g' = log g ++ [
        let logMessage :=
          Player.name p +:+ " (" +:+ pretty (Player.id p) +:+ ") moved "
            +:+ pretty (Player.currentPlace p' - Player.currentPlace p)
            +:+ " to place " +:+ pretty (Place.id place) in
        match Place.message place with
        | Some m => logMessage +:+ ", message: " +:+ m
        | None => logMessage
        end ].
Proof.
  unfold move, getCurrentPlace, deref, store, logging_info, of_option,
    bind, ret, raise, gets, modify.
  intros H.
  destruct (Z.gtb_spec step 0); [|destruct (Z.ltb_spec step 0)];
    destruct (heap g !! self) as [p|] eqn:Hp; simpl in H; try done;
    rewrite ?lookup_insert_eq in H; simpl in H;
    rewrite ?Hp in H; simpl in H;
    destruct (py_getitem _ _) as [place|] eqn:Hplace; simpl in H; try done;
    rewrite ?lookup_insert_eq in H; simpl in H; rewrite ?Hp in H;
    injection H as <-; simpl;
    eexists p, _, place; rewrite ?lookup_insert_eq;
    (split; [done|]); (split; [first [reflexivity|exact Hp]|]); simpl;
    (split; [done|]);
    do 2 f_equal; destruct (Place.message place);
    repeat (f_equal; try lia).
Qed.

End MoveFrame.

(** A move of three places from place 5 of [BOARD]. *)
Lemma move_changes_only_the_mover_witness :
  let g := board_game [] [Player.mk 0 "A" 5 5 0; Player.mk 1 "B" 7 7 1] 0 in
  let g' := state_of (move 0 3 g) in
  move 0 3 g = Ok tt g'
  ∧ rng g' = rng g
  ∧ currentPlayerOffset g' = currentPlayerOffset g
  ∧ totalPlayers g' = totalPlayers g
  ∧ players g' = players g
  ∧ places g' = places g
  ∧ totalTurns g' = totalTurns g
  ∧ (∀ q, q ≠ 0 → heap g' !! q = heap g !! q)
  ∧ ∃ p p', heap g !! 0 = Some p
            ∧ heap g' !! 0 = Some p'
            ∧ Player.id p' = Player.id p
            ∧ Player.name p' = Player.name p
            ∧ Player.turnsToSkip p' = Player.turnsToSkip p.
Proof.
  intros g g'. split; [vm_compute; reflexivity|].
  apply (move_changes_only_the_mover g 0 3 g'). vm_compute. reflexivity.
Defined.

(** A move back from place 1 that would pass place 0: the record says 1. *)
Lemma move_logs_the_displacement_witness :
  let g := board_game [] [Player.mk 0 "A" 1 1 0] 0 in
  let g' := state_of (move 0 (-2) g) in
  move 0 (-2) g = Ok tt g'
  ∧ ∃ p p' place,
      heap g !! 0 = Some p
      ∧ heap g' !! 0 = Some p'
      ∧ py_getitem (places g') (Player.currentPlace p') = Some place
      ∧ log g' = log g ++ [
          let logMessage :=
            Player.name p +:+ " (" +:+ pretty (Player.id p) +:+ ") moved "
              +:+ pretty (Player.currentPlace p' - Player.currentPlace p)
              +:+ " to place " +:+ pretty (Place.id place) in
          match Place.message place with
          | Some m => logMessage +:+ ", message: " +:+ m
          | None => logMessage
          end ].
Proof.
  intros g g'. split; [vm_compute; reflexivity|].
  apply (move_logs_the_displacement g 0 (-2) g'). vm_compute. reflexivity.
Defined.

(** A forward move past the end of [BOARD], and a backward move that stays
    on it. *)
Lemma move_stays_on_board_witness :
  let g := board_game [] [Player.mk 0 "A" 45 45 0] 0 in
  heap g !! 0 = Some (Player.mk 0 "A" 45 45 0)
  ∧ ∃ c, place_of (state_of (move 0 6 g)) 0 = Some c
         ∧ 0 ≤ c < board_length g
         ∧ c = Z.min (45 + 6) (board_length g - 1).
Proof.
  intros g. split; [reflexivity|].
  apply (move_stays_on_board g 0 6 (Player.mk 0 "A" 45 45 0)).
  - reflexivity.
  - vm_compute. split; [discriminate|reflexivity].
  - vm_compute. discriminate.
Defined.

Lemma move_counts_distance_witness :
  let g := board_game [] [Player.mk 0 "A" 45 45 0] 0 in
  heap g !! 0 = Some (Player.mk 0 "A" 45 45 0)
  ∧ ∃ p', heap (state_of (move 0 (-5) g)) !! 0 = Some p'
          ∧ Player.totalPlaces p' = 45 + Z.abs (Player.currentPlace p' - 45).
Proof.
  intros g. split; [reflexivity|].
  apply (move_counts_distance g 0 (-5) (Player.mk 0 "A" 45 45 0)).
  - reflexivity.
  - vm_compute. split; [discriminate|reflexivity].
  - vm_compute. discriminate.
Defined.

(** ** Turn order *)

Section TurnOrder.
Context {RNG EF PEF : Type}.
Implicit Types (g : Game RNG EF PEF).

(** X5: with the offset on a player of the roster, advancing and then
    rewinding, or rewinding and then advancing, gives the state back. *)
Theorem advance_and_rewind_cancel g :
  0 ≤ currentPlayerOffset g < Z.of_nat (length (players g)) →
  (_advanceCurrentPlayer ;;; _rewindCurrentPlayer) g = Ok tt g
  ∧ (_rewindCurrentPlayer ;;; _advanceCurrentPlayer) g = Ok tt g.
Proof.
  intros Ho. destruct g as [r o t tp ps pl tt' h lg]; simpl in *.
  unfold _advanceCurrentPlayer, _rewindCurrentPlayer, _nextPlayerOffset,
    _lastPlayerOffset, py_mod, bind, gets, modify, ret, raise; simpl.
  destruct (decide (Z.of_nat (length ps) = 0)) as [|_]; [lia|]. simpl.
  destruct (decide (Z.of_nat (length ps) = 0)) as [|_]; [lia|]. simpl.
  unfold set_currentPlayerOffset; simpl.
  rewrite Zminus_mod_idemp_l, Zplus_mod_idemp_l.
  replace (o + 1 - 1) with o by lia. replace (o - 1 + 1) with o by lia.
  by rewrite Z.mod_small by lia.
Qed.

(** X6: advancing once for every player of the roster brings the offset
    back to where it was. *)
Theorem advancing_round_the_roster g :
  0 ≤ currentPlayerOffset g < Z.of_nat (length (players g)) →
  for_each (players g) (λ _, _advanceCurrentPlayer) g = Ok tt g.
Proof.
  intros Ho.
  assert (∀ (l : list Z) o,
    0 ≤ o < Z.of_nat (length (players g)) →
    for_each l (λ _, _advanceCurrentPlayer) (set_currentPlayerOffset o g)
    = Ok tt (set_currentPlayerOffset
               ((o + Z.of_nat (length l)) `mod` Z.of_nat (length (players g))) g))
    as Hgen.
  { induction l as [|x l IH]; intros o Hr; simpl.
    - unfold ret. rewrite Z.add_0_r, Z.mod_small by lia. done.
    - unfold bind at 1.
      unfold _advanceCurrentPlayer, _nextPlayerOffset, py_mod, bind, gets,
        modify, ret, raise; simpl.
      destruct (decide _) as [|_]; [lia|]. simpl.
      change (set_currentPlayerOffset ?a (set_currentPlayerOffset ?b g))
        with (set_currentPlayerOffset a g).
      rewrite IH by (apply Z.mod_pos_bound; lia).
      rewrite Zplus_mod_idemp_l. do 3 f_equal. lia. }
  specialize (Hgen (players g) (currentPlayerOffset g) Ho).
  replace (set_currentPlayerOffset (currentPlayerOffset g) g) with g in Hgen
    by (by destruct g).
  rewrite Hgen. f_equal.
  replace (currentPlayerOffset g + Z.of_nat (length (players g)))
    with (currentPlayerOffset g + 1 * Z.of_nat (length (players g))) by lia.
  rewrite Z_mod_plus_full, Z.mod_small by lia. by destruct g.
Qed.

End TurnOrder.

Lemma advance_and_rewind_cancel_witness :
  let g := board_game [] [Player.mk 0 "A" 0 0 0; Player.mk 1 "B" 0 0 0;
                          Player.mk 2 "C" 0 0 0] 2 in
  0 ≤ currentPlayerOffset g < Z.of_nat (length (players g))
  ∧ (_advanceCurrentPlayer ;;; _rewindCurrentPlayer) g = Ok tt g
  ∧ (_rewindCurrentPlayer ;;; _advanceCurrentPlayer) g = Ok tt g.
Proof.
  intros g.
  assert (0 ≤ currentPlayerOffset g < Z.of_nat (length (players g))) as Ho
    by (vm_compute; split; [discriminate|reflexivity]).
  split; [exact Ho|]. exact (advance_and_rewind_cancel g Ho).
Defined.

Lemma advancing_round_the_roster_witness :
  let g := board_game [] [Player.mk 0 "A" 0 0 0; Player.mk 1 "B" 0 0 0;
                          Player.mk 2 "C" 0 0 0] 1 in
  0 ≤ currentPlayerOffset g < Z.of_nat (length (players g))
  ∧ for_each (players g) (λ _, _advanceCurrentPlayer) g = Ok tt g.
Proof.
  intros g.
  assert (0 ≤ currentPlayerOffset g < Z.of_nat (length (players g))) as Ho
    by (vm_compute; split; [discriminate|reflexivity]).
  split; [exact Ho|]. exact (advancing_round_the_roster g Ho).
Defined.

(** ** Game.losePlayer: who goes, and when it raises *)

Lemma py_getitem_mod {A} (l : list A) (i : Z) (x : A) :
  py_getitem l i = Some x →
  Z.of_nat (length l) ≠ 0
  ∧ l !! Z.to_nat (i `mod` Z.of_nat (length l)) = Some x.
Proof.
  unfold py_getitem. intros H.
  destruct (decide (0 ≤ i)).
  - pose proof (lookup_lt_Some _ _ _ H). split; [lia|].
    rewrite Z.mod_small by lia. done.
  - destruct (decide _); [|done].
    pose proof (lookup_lt_Some _ _ _ H). split; [lia|].
    replace (i `mod` Z.of_nat (length l)) with (Z.of_nat (length l) + i); [done|].
    rewrite <- (Z_mod_plus_full i 1), Z.mod_small; lia.
Qed.

Lemma py_index_None (l : list Z) (x : Z) : py_index l x = None ↔ x ∉ l.
Proof.
  induction l as [|y l IH]; simpl.
  - split; [intros _; apply not_elem_of_nil|done].
  - destruct (decide (x = y)) as [->|Hne].
    + split; [done|]. intros Hn. destruct Hn. left.
    + rewrite not_elem_of_cons. destruct (py_index l x); simpl.
      * split; [done|]. intros [_ Hn]. by apply IH in Hn.
      * split; [|done]. intros _. split; [done|]. by apply IH.
Qed.

Lemma filter_all_in (P : Z → Prop) `{∀ x, Decision (P x)} (l : list Z) :
  Forall P l → filter P l = l.
Proof.
  induction 1 as [|x l Hx _ IH]; [done|].
  rewrite filter_cons_True by done. by rewrite IH.
Qed.

Lemma delete_NoDup_filter (l : list Z) (j : nat) (x : Z) :
  NoDup l → l !! j = Some x → delete j l = filter (λ y, y ≠ x) l.
Proof.
  intros Hnd. revert j. induction Hnd as [|y l Hy Hnd IH]; intros j Hj; [done|].
  rewrite filter_cons. destruct j as [|j]; simpl in *.
  - injection Hj as ->. rewrite decide_False by (intros H; by apply H).
    symmetry. apply filter_all_in.
    rewrite Forall_forall. intros z Hz ->. done.
  - rewrite decide_True.
    + f_equal. by apply IH.
    + intros ->. apply Hy. by eapply list_elem_of_lookup_2.
Qed.

Section LoseMore.
Context {RNG EF PEF : Type}.
Implicit Types (g : Game RNG EF PEF).

(** X9: when [losePlayer] returns, one entry of the roster that is the lost
    player is gone and the rest of the roster stands in its order; the
    player objects, [totalPlayers], the board, the random source and the
    log are as they were.  In a roster without repetition the roster left
    is the roster without that player. *)
Theorem losePlayer_removes_one g p g' :
  losePlayer p g = Ok tt g' →
  (∃ j, players g !! j = Some p ∧ players g' = delete j (players g))
  ∧ (NoDup (players g) → players g' = filter (λ q, q ≠ p) (players g))
  ∧ heap g' = heap g
  ∧ totalPlayers g' = totalPlayers g
  ∧ places g' = places g
  ∧ rng g' = rng g
  ∧ totalTurns g' = totalTurns g
  ∧ log g' = log g.
Proof.
  intros H.
  assert (∃ j, players g !! j = Some p ∧
            g' = set_players (delete j (players g))
                   (set_currentPlayerOffset (currentPlayerOffset g') g))
    as (j & Hj & ->).
  { revert H. unfold losePlayer. intros H.
    inv_bind H as ps g1 H1 H. inv_run H1.
    inv_bind H as o g1 H1 H. inv_run H1.
    inv_bind H as cur g1 H1 H. inv_run H1.
    destruct (py_getitem_mod _ _ _ Hrun) as [Hn Hcur].
    destruct (bool_decide_reflect (p = cur)) as [->|Hne].
    - exists (Z.to_nat (currentPlayerOffset g `mod` Z.of_nat (length (players g)))).
      split; [done|].
      revert H.
      unfold _rewindCurrentPlayer, _lastPlayerOffset, _nextPlayerOffset,
        players_pop, py_mod, of_option, bind, ret, raise, gets, modify; simpl.
      rewrite !decide_False by done. simpl.
      rewrite Zplus_mod_idemp_l.
      replace (currentPlayerOffset g - 1 + 1) with (currentPlayerOffset g) by lia.
      pose proof (Z.mod_pos_bound (currentPlayerOffset g)
                    (Z.of_nat (length (players g)))) as Hb.
      unfold py_pop. simpl.
      repeat case_decide; try lia.
      intros [= <-]. simpl. by destruct g.
    - inv_bind H as j g1 H1 H. inv_run H1.
      destruct (py_index_lookup _ _ _ Hrun0) as [Hjr Hjl].
      exists (Z.to_nat j). split; [done|].
      revert H.
      unfold _rewindCurrentPlayer, _lastPlayerOffset, players_pop, py_mod,
        of_option, bind, ret, raise, gets, modify; simpl.
      unfold py_pop.
      destruct (_ >? _); simpl; rewrite ?decide_False by done; simpl;
        repeat case_decide; try lia;
        intros [= <-]; simpl; by destruct g. }
  simpl. repeat split; eauto.
  intros Hnd. by apply delete_NoDup_filter.
Qed.

(** X10: [losePlayer] raises IndexError when the offset points at no player
    of the roster, as with an empty roster, and ValueError when the offset
    points at a player and the player to lose is not in the roster.  The
    state is untouched in both cases. *)
Theorem losePlayer_raises g p :
  (py_getitem (players g) (currentPlayerOffset g) = None →
   losePlayer p g = Raise IndexError g)
  ∧ (is_Some (py_getitem (players g) (currentPlayerOffset g)) →
     p ∉ players g →
     losePlayer p g = Raise ValueError g).
Proof.
  unfold losePlayer, of_option, bind, gets, raise, ret. simpl. split.
  - by intros ->.
  - intros [cur Hcur] Hp. rewrite Hcur. simpl.
    rewrite bool_decide_eq_false_2.
    + apply py_index_None in Hp. by rewrite Hp.
    + intros ->. apply Hp. by eapply py_getitem_elem_of.
Qed.

End LoseMore.

Lemma losePlayer_removes_one_witness :
  let g := board_game [] [Player.mk 0 "A" 0 0 0; Player.mk 1 "B" 0 0 0;
                          Player.mk 2 "C" 0 0 0] 2 in
  let g' := state_of (losePlayer 1 g) in
  losePlayer 1 g = Ok tt g'
  ∧ (∃ j, players g !! j = Some 1 ∧ players g' = delete j (players g))
  ∧ (NoDup (players g) → players g' = filter (λ q, q ≠ 1) (players g))
  ∧ heap g' = heap g
  ∧ totalPlayers g' = totalPlayers g
  ∧ places g' = places g
  ∧ rng g' = rng g
  ∧ totalTurns g' = totalTurns g
  ∧ log g' = log g.
Proof.
  intros g g'. split; [vm_compute; reflexivity|].
  apply (losePlayer_removes_one g 1 g'). vm_compute. reflexivity.
Defined.

(** An empty roster, and a player that is not in the roster. *)
Lemma losePlayer_raises_witness :
  let g0 : DogGame := board_game [] [] 0 in
  let g1 : DogGame :=
    board_game [] [Player.mk 0 "A" 0 0 0; Player.mk 1 "B" 0 0 0] 0 in
  (py_getitem (players g0) (currentPlayerOffset g0) = None
   ∧ losePlayer 0 g0 = Raise IndexError g0)
  ∧ (is_Some (py_getitem (players g1) (currentPlayerOffset g1))
     ∧ (7 ∉ players g1)
     ∧ losePlayer 7 g1 = Raise ValueError g1).
Proof.
  intros g0 g1.
  assert (7 ∉ players g1) as Hnot.
  { simpl. intros Hin.
    repeat (apply elem_of_cons in Hin as [Hin|Hin]; [discriminate Hin|]).
    by apply elem_of_nil in Hin. }
  assert (is_Some (py_getitem (players g1) (currentPlayerOffset g1))) as Hsome
    by (by exists 0).
  split.
  - split; [reflexivity|]. by apply (proj1 (losePlayer_raises g0 0)).
  - split; [exact Hsome|]. split; [exact Hnot|].
    exact (proj2 (losePlayer_raises g1 7) Hsome Hnot).
Defined.

Lemma losePlayer_offset_in_range_witness :
  let g := board_game [] [Player.mk 0 "A" 0 0 0; Player.mk 1 "B" 0 0 0;
                          Player.mk 2 "C" 0 0 0] 2 in
  let g' := state_of (losePlayer 0 g) in
  losePlayer 0 g = Ok tt g'
  ∧ 0 ≤ currentPlayerOffset g' < Z.of_nat (length (players g')).
Proof.
  intros g g'. split; [vm_compute; reflexivity|].
  apply (losePlayer_offset_in_range g g' 2 2 0).
  - reflexivity.
  - reflexivity.
  - intros [? _]. discriminate.
  - vm_compute. reflexivity.
  - vm_compute. discriminate.
Defined.

Lemma losePlayer_then_advance_witness :
  let g := board_game [] [Player.mk 0 "A" 0 0 0; Player.mk 1 "B" 0 0 0;
                          Player.mk 2 "C" 0 0 0] 2 in
  players g !! 2%nat = Some 2
  ∧ ∃ g', (losePlayer 2 ;;; _advanceCurrentPlayer) g = Ok tt g'
          ∧ current_player g' = Some 0
          ∧ players g' = delete 2%nat (players g).
Proof.
  intros g. split; [reflexivity|].
  apply (losePlayer_then_advance g 2 2 0).
  - reflexivity.
  - reflexivity.
  - apply Nat.lt_0_succ.
  - reflexivity.
Defined.

(** ** newGame *)

Lemma enumerate_lookup {A} (l : list A) (k : Z) (i : nat) :
  enumerate k l !! i = (λ x, (k + Z.of_nat i, x)) <$> l !! i.
Proof.
  revert k i. induction l as [|x l IH]; intros k i; [by destruct i|].
  destruct i as [|i]; simpl.
  - by rewrite Z.add_0_r.
  - rewrite IH. destruct (l !! i); simpl; [|done]. do 2 f_equal. lia.
Qed.

Lemma enumerate_fst {A} (l : list A) (k : Z) :
  (enumerate k l).*1 = (λ i : nat, k + Z.of_nat i) <$> seq 0 (length l).
Proof.
  revert k. induction l as [|x l IH]; intros k; [done|]. simpl.
  rewrite Z.add_0_r. f_equal. rewrite IH, <- fmap_S_seq, <- list_fmap_compose.
  apply list_fmap_ext. intros _ i _. simpl. lia.
Qed.

Lemma py_set_NoDup (l : list Z) : NoDup l → py_set l = l.
Proof.
  induction 1 as [|x l Hx _ IH]; simpl; [done|].
  rewrite IH. f_equal. apply filter_all_in.
  rewrite Forall_forall. by intros y Hy ->.
Qed.

Section NewGame.
Context {RNG EF PEF : Type}.
Context (Random : Z → RNG).

(** X11: [newGame] gives the players the ids 0, 1, 2, ... in the order of
    their names, puts all of them in the roster and in [totalPlayers], each
    on place 0 with nothing walked and no turn to skip, and gives each
    place of the board its position as id; the first turn is the first
    player's. *)
Theorem newGame_layout log0 seed (names : list string)
    (board : list (option EF * option PEF * option string)) :
  let g := newGame Random log0 seed names board in
  players g = (λ i : nat, Z.of_nat i) <$> seq 0 (length names)
  ∧ totalPlayers g = players g
  ∧ NoDup (players g)
  ∧ (∀ (i : nat) name, names !! i = Some name →
       heap g !! Z.of_nat i = Some (Player.mk (Z.of_nat i) name 0 0 0))
  ∧ (∀ r, is_Some (heap g !! r) → r ∈ players g)
  ∧ (∀ (i : nat) e pe msg, board !! i = Some (e, pe, msg) →
       places g !! i = Some (Place.mk (Z.of_nat i) e pe msg))
  ∧ length (places g) = length board
  ∧ currentPlayerOffset g = 0
  ∧ totalTurns g = 0
  ∧ rng g = Random seed
  ∧ log g = log0.
Proof.
  intros g. unfold g, newGame. simpl.
  set (ps := (λ '(id, name), Player.mk id name 0 0 0) <$> enumerate 0 names).
  assert (Player.id <$> ps = (λ i : nat, Z.of_nat i) <$> seq 0 (length names))
    as Hids.
  { transitivity ((enumerate 0 names).*1).
    - unfold ps. rewrite <- list_fmap_compose.
      apply list_fmap_ext. by intros _ [i n] _.
    - rewrite enumerate_fst. apply list_fmap_ext. intros _ i _. lia. }
  assert (NoDup (Player.id <$> ps)) as Hnd.
  { rewrite Hids. apply NoDup_fmap_2; [|apply NoDup_seq]. intros ???. lia. }
  split; [done|]. split; [by apply py_set_NoDup|]. split; [done|].
  split; [|split; [|split; [|split]]].
  - intros i name Hi. apply elem_of_list_to_map_1.
    + by rewrite <- list_fmap_compose.
    + apply list_elem_of_fmap.
      exists (Player.mk (Z.of_nat i) name 0 0 0). split; [reflexivity|].
      apply list_elem_of_lookup. exists i. unfold ps.
      rewrite list_lookup_fmap, enumerate_lookup, Hi. simpl.
      by rewrite Z.add_0_l.
  - intros r [p Hr]. apply elem_of_list_to_map_2 in Hr.
    apply list_elem_of_fmap in Hr as (p' & [= -> ->] & Hin).
    apply list_elem_of_fmap. eauto.
  - intros i e pe msg Hi.
    rewrite list_lookup_fmap, enumerate_lookup, Hi. simpl.
    by rewrite Z.add_0_l.
  - rewrite length_fmap.
    rewrite <- (length_fmap fst), enumerate_fst, length_fmap. apply length_seq.
  - done.
Qed.

End NewGame.

(** ** Game.doTurn: the skipped turn, and what each result says *)

Section TurnOutcomes.
Context {RNG EF PEF : Type}.
Context (randint : Z → Z → RNG → Z * RNG).
Context (set_iter : list Z → list Z).
Context (call_effect : EF → Place.t EF PEF → Z → M (Game RNG EF PEF) EffectResult).
Context (call_persistent :
           PEF → Place.t EF PEF → Z → Z → M (Game RNG EF PEF) PersistentEffectResult).
Implicit Types (g : Game RNG EF PEF).

(** X12: when the current player has turns to skip, the turn takes one of
    them and passes to the next player of the roster: no die is rolled, no
    effect is called, nobody moves, and the one record logged is the turn
    number. *)
Theorem doTurn_skips fuel g cur p :
  py_getitem (players g) (currentPlayerOffset g) = Some cur →
  heap g !! cur = Some p →
  Player.turnsToSkip p > 0 →
  ∃ g', doTurn randint set_iter call_effect call_persistent fuel g
          = Ok TurnNone g'
        ∧ heap g' = <[cur := Player.mk (Player.id p) (Player.name p)
                               (Player.currentPlace p) (Player.totalPlaces p)
                               (Player.turnsToSkip p - 1)]> (heap g)
        ∧ currentPlayerOffset g' =
            (currentPlayerOffset g + 1) `mod` Z.of_nat (length (players g))
        ∧ totalTurns g' = totalTurns g + 1
        ∧ log g' = log g ++ ["turn " +:+ pretty (totalTurns g + 1)]
        ∧ rng g' = rng g
        ∧ players g' = players g
        ∧ places g' = places g.
Proof.
  intros Hcur Hp Hskip.
  destruct (py_getitem_mod _ _ _ Hcur) as [Hn _].
  unfold doTurn, getCurrentTurnPlayer, _advanceCurrentPlayer,
    _nextPlayerOffset, py_mod, logging_info, deref, store, of_option, bind,
    ret, raise, gets, modify.
  simpl. rewrite Hcur. simpl. rewrite Hp.
  destruct (Z.gtb_spec (Player.turnsToSkip p) 0); [|lia]. simpl.
  rewrite decide_False by done. simpl.
  eexists. split; [reflexivity|]. simpl. by repeat split.
Qed.

(** X13: a turn that returns [None] leaves a roster that is not empty with
    the offset on one of its players, and a turn that returns [False]
    leaves an empty roster. *)
Theorem doTurn_result fuel g r g' :
  doTurn randint set_iter call_effect call_persistent fuel g = Ok r g' →
  match r with
  | TurnNone =>
      players g' ≠ []
      ∧ 0 ≤ currentPlayerOffset g' < Z.of_nat (length (players g'))
  | TurnFalse => players g' = []
  | TurnWinner _ => True
  end.
Proof.
  assert (∀ g0 g1 : Game RNG EF PEF,
            _advanceCurrentPlayer g0 = Ok tt g1 →
            players g1 ≠ []
            ∧ 0 ≤ currentPlayerOffset g1 < Z.of_nat (length (players g1)))
    as Hadv.
  { intros g0 g1.
    unfold _advanceCurrentPlayer, _nextPlayerOffset, py_mod, bind, gets,
      modify, ret, raise. simpl.
    destruct (decide _) as [|Hn]; [done|]. simpl. intros [= <-]. simpl.
    split; [by destruct (players g0)|]. apply Z.mod_pos_bound. lia. }
  unfold doTurn. intros H.
  inv_bind H as u0 g1 H1 H. inv_bind H as n g2 H2 H. inv_bind H as u1 g3 H3 H.
  inv_bind H as cur g4 H4 H. inv_bind H as p g5 H5 H.
  destruct (_ >? _).
  - inv_bind H as u2 g6 H6 H. inv_bind H as u3 g7 H7 H. inv_run H.
    destruct u3. by apply Hadv in H7.
  - inv_bind H as moved g6 H6 H. inv_bind H as w g7 H7 H.
    destruct w as [w|]; simpl in H; [by inv_run H|].
    inv_bind H as lost g8 H8 H. unfold everyoneLost in H8. inv_run H8.
    destruct (bool_decide_reflect (Z.of_nat (length (players g7)) = 0)) as [Hz|Hz].
    + inv_run H. by destruct (players g').
    + inv_bind H as u4 g9 H9 H. inv_run H. destruct u4. by apply Hadv in H9.
Qed.

(** X14: on a game with an empty roster a turn raises IndexError, once it
    has counted the turn and logged its number. *)
Theorem doTurn_without_players fuel g :
  players g = [] →
  doTurn randint set_iter call_effect call_persistent fuel g
  = Raise IndexError
      (set_log (log g ++ ["turn " +:+ pretty (totalTurns g + 1)])
         (set_totalTurns (totalTurns g + 1) g)).
Proof.
  intros Hps.
  unfold doTurn, getCurrentTurnPlayer, logging_info, of_option, bind, ret,
    raise, gets, modify, py_getitem.
  simpl. rewrite Hps. simpl. by repeat case_decide.
Qed.

End TurnOutcomes.

(** A turn that A, with one turn to skip, sits out. *)
Lemma doTurn_skips_witness :
  let g := board_game [6] [Player.mk 0 "A" 13 13 1; Player.mk 1 "B" 3 3 0] 0 in
  let p := Player.mk 0 "A" 13 13 1 in
  Player.turnsToSkip p > 0
  ∧ ∃ g', dog_doTurn 10 g = Ok TurnNone g'
          ∧ heap g' = <[0 := Player.mk (Player.id p) (Player.name p)
                                 (Player.currentPlace p) (Player.totalPlaces p)
                                 (Player.turnsToSkip p - 1)]> (heap g)
          ∧ currentPlayerOffset g' =
              (currentPlayerOffset g + 1) `mod` Z.of_nat (length (players g))
          ∧ totalTurns g' = totalTurns g + 1
          ∧ log g' = log g ++ ["turn " +:+ pretty (totalTurns g + 1)]
          ∧ rng g' = rng g
          ∧ players g' = players g
          ∧ places g' = places g.
Proof.
  intros g p. split; [reflexivity|].
  apply (doTurn_skips replay_randint (λ s, s) dog_effect dog_persistent 10 g 0 p);
    reflexivity.
Defined.

(** A turn that goes on, for [doTurn_result]. *)
Lemma doTurn_result_witness :
  let g := board_game [3] [Player.mk 0 "A" 0 0 0; Player.mk 1 "B" 0 0 0] 0 in
  let g' := state_of (dog_doTurn 10 g) in
  dog_doTurn 10 g = Ok TurnNone g'
  ∧ players g' ≠ []
  ∧ 0 ≤ currentPlayerOffset g' < Z.of_nat (length (players g')).
Proof.
  intros g g'. split; [vm_compute; reflexivity|].
  apply (doTurn_result replay_randint (λ s, s) dog_effect dog_persistent
           10 g TurnNone g').
  vm_compute. reflexivity.
Defined.

Lemma doTurn_without_players_witness :
  let g := board_game [3] [] 0 in
  players g = []
  ∧ dog_doTurn 10 g
    = Raise IndexError
        (set_log (log g ++ ["turn " +:+ pretty (totalTurns g + 1)])
           (set_totalTurns (totalTurns g + 1) g)).
Proof.
  intros g. split; [reflexivity|].
  by apply (doTurn_without_players replay_randint (λ s, s) dog_effect
              dog_persistent 10 g).
Defined.

(** ** Invariants of the game of [dog.py] *)

Section SafeRules.
Context {S : Type} (I : S → Prop) (X : exn → Prop).

Lemma safe_ret {A} (a : A) : safe I X (ret a).
Proof. by intros s Hs. Qed.

Lemma safe_raise {A} e : X e → safe I X (raise e : M S A).
Proof. by intros He s Hs. Qed.

Lemma safe_gets {A} (f : S → A) : safe I X (gets f).
Proof. by intros s Hs. Qed.

Lemma safe_modify (f : S → S) : (∀ s, I s → I (f s)) → safe I X (modify f).
Proof. intros Hf s Hs. by apply Hf. Qed.

Lemma safe_bind_val {A B} (R : A → Prop) (m : M S A) (k : A → M S B) :
  safe I X m →
  (∀ s a s', I s → m s = Ok a s' → R a) →
  (∀ a, R a → safe I X (k a)) →
  safe I X (bind m k).
Proof.
  intros Hm HR Hk s Hs. unfold bind.
  specialize (Hm s Hs). specialize (HR s).
  destruct (m s) as [a s1|e s1]; [|done].
  apply (Hk a); [by eapply HR|done].
Qed.

Lemma safe_bind {A B} (m : M S A) (k : A → M S B) :
  safe I X m → (∀ a, safe I X (k a)) → safe I X (bind m k).
Proof.
  intros Hm Hk. apply (safe_bind_val (λ _, True)); [done|done|].
  intros a _. apply Hk.
Qed.

Lemma safe_for_each {A} (l : list A) (body : A → M S unit) :
  (∀ x, x ∈ l → safe I X (body x)) → safe I X (for_each l body).
Proof.
  induction l as [|x l IH]; intros Hb; simpl; [apply safe_ret|].
  apply safe_bind; [apply Hb; left|]. intros _. apply IH.
  intros y Hy. apply Hb. by right.
Qed.

Lemma safe_comprehension {A B} (l : list A) (f : A → M S B) :
  (∀ x, safe I X (f x)) → safe I X (comprehension l f).
Proof.
  intros Hf. induction l as [|x l IH]; simpl; [apply safe_ret|].
  apply safe_bind; [apply Hf|intros y].
  apply safe_bind; [apply IH|intros ys]. apply safe_ret.
Qed.

Lemma safe_comprehension_if {A} (l : list A) (c : A → M S bool) :
  (∀ x, safe I X (c x)) → safe I X (comprehension_if l c).
Proof.
  intros Hc. induction l as [|x l IH]; simpl; [apply safe_ret|].
  apply safe_bind; [apply Hc|intros b].
  apply safe_bind; [apply IH|intros ys]. apply safe_ret.
Qed.

(** What a safe call that returned, or raised, says. *)
Lemma safe_Ok {A} (m : M S A) s a s' : safe I X m → I s → m s = Ok a s' → I s'.
Proof. intros Hm Hs Hr. specialize (Hm s Hs). by rewrite Hr in Hm. Qed.

Lemma safe_Raise {A} (m : M S A) s e s' :
  safe I X m → I s → m s = Raise e s' → I s' ∧ X e.
Proof. intros Hm Hs Hr. specialize (Hm s Hs). by rewrite Hr in Hm. Qed.

End SafeRules.

Lemma never_raised_IndexError : never_raised IndexError.
Proof. by repeat split. Qed.

Lemma never_raised_ValueError : never_raised ValueError.
Proof. by repeat split. Qed.

Lemma never_raised_DanglingReference : never_raised DanglingReference.
Proof. by repeat split. Qed.

Create HintDb safe discriminated.

#[export] Hint Resolve safe_ret safe_gets never_raised_IndexError
  never_raised_ValueError never_raised_DanglingReference : safe.

Section OnBoard.
Context {RNG : Type}.
Context (randint : Z → Z → RNG → Z * RNG).
Context (getrandbits : Z → RNG → Z * RNG).
Implicit Types (g : Game RNG EffectFunc PersistentEffectFunc).

(** A state with the player objects and the board of a state on the board
    is on the board. *)
Lemma on_board_frame g g' :
  heap g' = heap g → places g' = places g → on_board g → on_board g'.
Proof. unfold on_board. by intros -> ->. Qed.

Lemma on_board_store g r p :
  on_board g →
  0 ≤ Player.currentPlace p ≤ 48 → 0 ≤ Player.turnsToSkip p →
  on_board (set_heap (<[r := p]> (heap g)) g).
Proof.
  intros [Hpl Hh] Hc Hs. split; [done|]. simpl. intros r' p'.
  destruct (decide (r = r')) as [->|Hne].
  - rewrite lookup_insert_eq. by intros [= <-].
  - rewrite lookup_insert_ne by done. apply Hh.
Qed.

Lemma board_places_length : length board_places = 49%nat.
Proof. reflexivity. Qed.

(** What [Player.move] leaves: the log apart, the state with the object
    [after_move] gives in place of the player's. *)
Lemma move_state_of g self step :
  ∃ l, state_of (move self step g) =
         set_log l
           (set_heap
              (match heap g !! self with
               | Some p => <[self := after_move (board_length g) p step]> (heap g)
               | None => heap g
               end) g).
Proof.
  destruct (heap g !! self) as [p|] eqn:Hp.
  - unfold move, after_move, board_length, getCurrentPlace, deref, store,
      logging_info, of_option, bind, ret, raise, gets, modify.
    destruct (step >? 0); [|destruct (step <? 0)]; rewrite ?Hp; simpl;
      rewrite ?lookup_insert_eq, ?Hp; simpl;
      destruct (py_getitem _ _); simpl; rewrite ?lookup_insert_eq, ?Hp; simpl;
      destruct g as [r o ct tp ps pl tt' h lg]; simpl in *;
      unfold set_log, set_heap; simpl; rewrite ?(insert_id h self p) by done;
      first [ by eexists | by exists lg ].
  - unfold move, getCurrentPlace, deref, store, logging_info, of_option,
      bind, ret, raise, gets, modify.
    destruct (step >? 0); [|destruct (step <? 0)]; rewrite ?Hp; simpl;
      rewrite ?Hp; exists (log g); by destruct g.
Qed.

(** [Player.move] raises IndexError, or nothing (a reference to no object
    apart). *)
Lemma move_raises g self step e g' :
  move self step g = Raise e g' → e = IndexError ∨ e = DanglingReference.
Proof.
  unfold move, getCurrentPlace, deref, store, logging_info, of_option, bind,
    ret, raise, gets, modify.
  destruct (heap g !! self) as [p|] eqn:Hp;
    (destruct (step >? 0); [|destruct (step <? 0)]); rewrite ?Hp; simpl;
    rewrite ?lookup_insert_eq, ?Hp; simpl;
    try destruct (py_getitem _ _); simpl; rewrite ?lookup_insert_eq, ?Hp;
    intros [=]; subst; auto.
Qed.

(** A move by 24 places back at most, or forward, keeps the players on
    the board. *)
Lemma safe_move self step :
  -24 ≤ step → safe (@on_board RNG) never_raised (move self step).
Proof.
  intros Hstep g Hg.
  assert (on_board (state_of (move self step g))) as Hb.
  { destruct (move_state_of g self step) as [l ->].
    eapply on_board_frame; [reflexivity..|].
    destruct (heap g !! self) as [p|] eqn:Hp;
      [|eapply on_board_frame; [..|exact Hg]; done].
    destruct Hg as [Hpl Hh]. destruct (Hh _ _ Hp) as [Hc Hs].
    apply on_board_store; [done|..].
    - unfold after_move, board_length. rewrite Hpl, board_places_length.
      change (Z.of_nat 49) with 49.
      destruct (Z.gtb_spec step 0); [|destruct (Z.ltb_spec step 0)]; simpl;
        [destruct (Z.geb_spec (Player.currentPlace p + step) 49)
        |destruct (Z.ltb_spec (Player.currentPlace p + step) 0)|]; simpl; lia.
    - unfold after_move.
      by destruct (step >? 0); [|destruct (step <? 0)]. }
  destruct (move self step g) as [u g'|e g'] eqn:Hm; [done|].
  split; [done|].
  destruct (move_raises _ _ _ _ _ Hm) as [->| ->]; auto with safe.
Qed.

End OnBoard.

Lemma safe_of_option {RNG EF PEF A} (I : Game RNG EF PEF → Prop) X e (o : option A) :
  X e → safe I X (of_option e o).
Proof. intros He. destruct o; [apply safe_ret|by apply safe_raise]. Qed.

(** Go through a body call by call, for the players on the board. *)
Ltac safe_tac :=
  repeat first
    [ solve [auto with safe]
    | match goal with |- ∀ _, _ => intro end
    | apply safe_for_each
    | apply safe_comprehension
    | apply safe_comprehension_if
    | apply safe_of_option; solve [auto with safe]
    | apply safe_raise; solve [auto with safe]
    | apply safe_modify; intros ? ?;
        (eapply on_board_frame; [..|eassumption]; reflexivity)
    | match goal with
      | |- safe _ _ (match ?x with _ => _ end) => destruct x
      end
    | apply safe_bind ].

Section OnBoardCalls.
Context {RNG : Type}.
Context (randint : Z → Z → RNG → Z * RNG).
Context (getrandbits : Z → RNG → Z * RNG).
Hypothesis die : die_in_range randint.
Implicit Types (g : Game RNG EffectFunc PersistentEffectFunc).
Implicit Types (place : Place.t EffectFunc PersistentEffectFunc).

Lemma safe_deref self :
  safe (@on_board RNG) never_raised (deref self).
Proof.
  intros g Hg. unfold deref. destruct (heap g !! self); [done|].
  split; [done|]. auto with safe.
Qed.

Lemma safe_logging_info msg :
  safe (@on_board RNG) never_raised (logging_info msg).
Proof. unfold logging_info. safe_tac. Qed.

Hint Resolve safe_deref safe_logging_info : safe.

Lemma safe_getCurrentPlace self :
  safe (@on_board RNG) never_raised (getCurrentPlace self).
Proof. unfold getCurrentPlace. safe_tac. Qed.

Lemma safe_showPlayer self :
  safe (@on_board RNG) never_raised (showPlayer self).
Proof. unfold showPlayer. safe_tac. Qed.

Hint Resolve safe_getCurrentPlace safe_showPlayer : safe.

Lemma safe_d6 player : safe (@on_board RNG) never_raised (d6 randint player).
Proof. unfold d6. safe_tac. Qed.

Lemma safe_coin player :
  safe (@on_board RNG) never_raised (coin getrandbits player).
Proof. unfold coin. safe_tac. Qed.

Lemma safe_getPlayersInPlace place :
  safe (@on_board RNG) never_raised (getPlayersInPlace place).
Proof. unfold getPlayersInPlace. safe_tac. Qed.

Hint Resolve safe_d6 safe_coin safe_getPlayersInPlace : safe.

(** A die roll that returns is a number from 1 to 6. *)
Lemma d6_in_range player g roll g' :
  d6 randint player g = Ok roll g' → 1 ≤ roll ≤ 6.
Proof.
  unfold d6. intros H. inv_bind H as r g1 H1 H. inv_run H1.
  pose proof (die (rng g)) as Hd.
  destruct (randint 1 6 (rng g)) as [roll' r'] eqn:Hr. simpl in Hd.
  inv_bind H as u g2 H2 H. inv_bind H as who g3 H3 H.
  inv_bind H as u' g4 H4 H. by inv_run H.
Qed.

(** Storing a player object that stands on the board. *)
Lemma safe_store self p :
  0 ≤ Player.currentPlace p ≤ 48 → 0 ≤ Player.turnsToSkip p →
  safe (@on_board RNG) never_raised (store self p).
Proof. intros Hc Hs g Hg. by apply on_board_store. Qed.

(** A player object read in a state on the board stands on the board. *)
Lemma deref_on_board self g p g' :
  on_board g → deref self g = Ok p g' →
  0 ≤ Player.currentPlace p ≤ 48 ∧ 0 ≤ Player.turnsToSkip p.
Proof.
  intros [_ Hh]. unfold deref. destruct (heap g !! self) eqn:Hp; [|done].
  intros [= <- <-]. by eapply Hh.
Qed.

Lemma losePlayer_frame player g g' :
  losePlayer player g = Ok tt g' → heap g' = heap g ∧ places g' = places g.
Proof.
  unfold losePlayer, _rewindCurrentPlayer, _lastPlayerOffset,
    _nextPlayerOffset, players_pop, py_mod, of_option, bind, ret, raise, gets,
    modify.
  simpl. intros H. repeat (case_match; simplify_eq/=; try done).
Qed.

(** [losePlayer] touches neither a player object nor the board, and
    raises IndexError or ValueError only: it divides by the length of a
    roster in which it has just found a player. *)
Lemma safe_losePlayer player :
  safe (@on_board RNG) never_raised (losePlayer player).
Proof.
  intros g Hg.
  destruct (losePlayer player g) as [u g'|e g'] eqn:H.
  - destruct u. apply losePlayer_frame in H as [Hh Hp].
    by eapply on_board_frame.
  - revert H. unfold losePlayer. unfold bind at 1, gets at 1.
    unfold bind at 1, gets at 1. unfold bind at 1.
    destruct (of_option IndexError
                (py_getitem (players g) (currentPlayerOffset g)) g)
      as [cur g1|e1 g1] eqn:Hcur.
    2:{ destruct (py_getitem _ _); [done|]. injection Hcur as <- <-.
        intros [= <- <-]. split; [done|]. auto with safe. }
    inv_run Hcur. destruct (py_getitem_mod _ _ _ Hrun) as [Hn _].
    unfold _rewindCurrentPlayer, _lastPlayerOffset, _nextPlayerOffset,
      players_pop, py_mod, of_option, bind, ret, raise, gets, modify.
    destruct (bool_decide (player = cur)); simpl.
    + rewrite decide_False by done. simpl.
      rewrite decide_False by done. simpl.
      destruct (py_pop _ _); simpl; [done|]. intros [= <- <-].
      split; [by eapply on_board_frame; [..|exact Hg]|auto with safe].
    + destruct (py_index _ _); simpl.
      * destruct (_ >? _); simpl; rewrite ?decide_False by done; simpl;
          (destruct (py_pop _ _); simpl; [done|]); intros [= <- <-];
          (split; [by eapply on_board_frame; [..|exact Hg]|auto with safe]).
      * intros [= <- <-]. split; [done|]. auto with safe.
Qed.

Hint Resolve safe_losePlayer : safe.
Hint Extern 1 (safe _ _ (move _ _)) => (apply safe_move; lia) : safe.

(** The persistent effects of the catalogue, for a roll from 1 to 6. *)
Lemma safe_call_persistent f place player roll :
  1 ≤ roll ≤ 6 →
  safe (@on_board RNG) never_raised (call_persistent f place player roll).
Proof.
  intros Hroll. destruct f as [n| |]; simpl;
    unfold ifAnyoneRollsN, do_effect_15_persistent, do_effect_20_persistent,
      getPlayers.
  - destruct (bool_decide_reflect (roll = n)) as [<-|_]; safe_tac.
  - safe_tac.
  - safe_tac.
Qed.

Lemma safe_effect_48_loop rolls myRoll player :
  safe (@on_board RNG) never_raised (effect_48_loop rolls myRoll player).
Proof. induction rolls as [|o rolls IH]; simpl; safe_tac. Qed.

Hint Resolve safe_effect_48_loop : safe.

(** The landing effects of the catalogue. *)
Lemma safe_call_effect f place player :
  safe (@on_board RNG) never_raised
    (call_effect randint getrandbits f place player).
Proof.
  destruct f; simpl;
    unfold do_effect_4, do_effect_9, do_effect_13, do_effect_18,
      do_effect_23, do_effect_25, do_effect_31, do_effect_33, do_effect_40,
      do_effect_44, do_effect_45, do_effect_46, do_effect_47, do_effect_48.
  all: try solve [safe_tac].
  - (* effect_9: the second roll is a step forward *)
    apply safe_bind; [safe_tac|]. intros [|]; [|safe_tac].
    apply (safe_bind_val _ _ (λ r, 1 ≤ r ≤ 6)); [safe_tac| |].
    + intros g r g' _. apply d6_in_range.
    + intros r Hr. safe_tac.
  - (* effect_13: one more turn to skip *)
    apply (safe_bind_val _ _
             (λ p, 0 ≤ Player.currentPlace p ≤ 48 ∧ 0 ≤ Player.turnsToSkip p));
      [safe_tac| |].
    + intros g p g'. apply deref_on_board.
    + intros p [Hc Hs]. apply safe_bind; [|safe_tac].
      apply safe_store; simpl; [done|lia].
Qed.

End OnBoardCalls.

Lemma safe_weaken {S A} (I : S → Prop) (X X' : exn → Prop) (m : M S A) :
  (∀ e, X e → X' e) → safe I X m → safe I X' m.
Proof.
  intros HX Hm s Hs. specialize (Hm s Hs).
  destruct (m s); [done|]. destruct Hm. auto.
Qed.

Section OnBoardTurn.
Context {RNG : Type}.
Context (randint : Z → Z → RNG → Z * RNG).
Context (getrandbits : Z → RNG → Z * RNG).
Context (set_iter : list Z → list Z).
Hypothesis die : die_in_range randint.
Implicit Types (g : Game RNG EffectFunc PersistentEffectFunc).
Implicit Types (place : Place.t EffectFunc PersistentEffectFunc).

Local Hint Resolve safe_deref safe_logging_info safe_getCurrentPlace
  safe_showPlayer safe_d6 safe_coin safe_getPlayersInPlace safe_losePlayer
  safe_effect_48_loop : safe.
Local Hint Extern 1 (safe _ _ (move _ _)) => (apply safe_move; lia) : safe.

(** The places a turn goes through for their persistent effect have one. *)
Lemma persistentEffectPlaces_have_effect (l : list Z) g ps g' :
  persistentEffectPlaces_of l g = Ok ps g' →
  Forall (λ q, hasPersistentEffect q = true) ps.
Proof.
  revert ps g'. induction l as [|p l IH]; intros ps g' H; simpl in H.
  - inv_run H. constructor.
  - inv_bind H as c g1 Hc H.
    pose proof (getCurrentPlace_reads _ _ _ _ Hc) as ->.
    destruct (hasPersistentEffect c) eqn:Hhas; [|by eapply IH].
    inv_bind H as q g1 Hq H.
    pose proof (getCurrentPlace_reads _ _ _ _ Hq) as ->.
    inv_bind H as qs g1 Hqs H. inv_run H.
    constructor; [congruence|by eapply IH].
Qed.

Lemma safe_persistentEffectPlaces_of (l : list Z) :
  safe (@on_board RNG) never_raised (persistentEffectPlaces_of l).
Proof. induction l as [|p l IH]; simpl; safe_tac. Qed.

Lemma safe_persistent_loop ps cur roll mp act :
  1 ≤ roll ≤ 6 →
  Forall (λ q, hasPersistentEffect q = true) ps →
  safe (@on_board RNG) never_raised
    (persistent_loop call_persistent ps cur roll mp act).
Proof.
  intros Hroll Hps. revert mp act.
  induction Hps as [|place ps Hplace _ IH]; intros mp act; simpl; [safe_tac|].
  apply safe_bind.
  - unfold executePersistentEffect, hasPersistentEffect in *.
    destruct (Place.persistentEffect place); [|done].
    by apply safe_call_persistent.
  - intros [l [|]]; [safe_tac|apply IH].
Qed.

Lemma safe_roll_and_move cur :
  safe (@on_board RNG) never_raised
    (roll_and_move randint call_persistent cur).
Proof.
  unfold roll_and_move.
  apply (safe_bind_val _ _ (λ r, 1 ≤ r ≤ 6)); [safe_tac| |].
  { intros g r g' _. by apply d6_in_range. }
  intros roll Hroll.
  apply (safe_bind_val _ _ (Forall (λ q, hasPersistentEffect q = true))).
  - unfold getCurrentPersistentEffectPlaces. safe_tac.
    apply safe_persistentEffectPlaces_of.
  - intros g ps g' _. unfold getCurrentPersistentEffectPlaces.
    intros H. inv_bind H as l g1 Hl H. by eapply persistentEffectPlaces_have_effect.
  - intros ps Hps. apply safe_bind; [by apply safe_persistent_loop|].
    intros [mv [|]]; simpl; safe_tac.
Qed.

Lemma safe_moved_loop mps acc :
  safe (@on_board RNG) never_raised
    (moved_loop (call_effect randint getrandbits) mps acc).
Proof.
  revert acc. induction mps as [|mp mps IH]; intros acc; simpl; [safe_tac|].
  apply safe_bind; [safe_tac|]. intros place.
  unfold hasEffect, executeEffect.
  destruct (Place.effect place) as [f|]; [|apply IH].
  apply safe_bind; [by apply safe_call_effect|].
  intros [l|w]; [apply IH|safe_tac].
Qed.

Lemma safe_main_loop fuel mps :
  safe (@on_board RNG) never_in_a_turn
    (main_loop set_iter (call_effect randint getrandbits) fuel mps).
Proof.
  revert mps. induction fuel as [|fuel IH]; intros mps; simpl.
  - destruct (bool_decide _); [|apply safe_ret].
    apply safe_raise. by split.
  - destruct (bool_decide _); [|apply safe_ret].
    apply safe_bind.
    + eapply safe_weaken; [|apply safe_moved_loop]. by intros e (? & ? & ?).
    + intros [w|new]; [apply safe_ret|apply IH].
Qed.

(** A turn is as safe as its main loop. *)
Lemma safe_doTurn_with (X : exn → Prop) fuel :
  (∀ e, never_raised e → X e) →
  (∀ mps, safe (@on_board RNG) X
            (main_loop set_iter (call_effect randint getrandbits) fuel mps)) →
  safe (@on_board RNG) X
    (doTurn randint set_iter (call_effect randint getrandbits)
       call_persistent fuel).
Proof.
  intros Hw Hmain.
  assert (∀ g, on_board g → players g ≠ [] →
            match _advanceCurrentPlayer g with
            | Ok _ g' => on_board g'
            | Raise e g' => on_board g' ∧ X e
            end) as Hadv.
  { intros g Hg Hne.
    unfold _advanceCurrentPlayer, _nextPlayerOffset, py_mod, bind, gets,
      modify, ret, raise. simpl.
    destruct (decide _) as [Hz|_].
    - destruct (players g); [done|simpl in Hz; lia].
    - simpl. by eapply on_board_frame; [..|exact Hg]. }
  intros g Hg. unfold doTurn.
  unfold bind at 1, modify at 1. unfold bind at 1, gets at 1.
  unfold bind at 1, logging_info at 1, modify at 1.
  set (g1 := set_log _ _).
  assert (on_board g1) as Hg1 by (by eapply on_board_frame; [..|exact Hg]).
  clearbody g1. clear g Hg.
  unfold bind at 1, getCurrentTurnPlayer at 1.
  unfold bind at 1, gets at 1. unfold bind at 1, gets at 1.
  destruct (py_getitem (players g1) (currentPlayerOffset g1)) as [cur|] eqn:Hcur;
    simpl; [|split; [done|apply Hw, never_raised_IndexError]].
  assert (players g1 ≠ []) as Hne.
  { intros Hnil. rewrite Hnil in Hcur. unfold py_getitem in Hcur. simpl in Hcur.
    by repeat case_decide. }
  unfold bind at 1, deref at 1.
  destruct (heap g1 !! cur) as [p|] eqn:Hp;
    [|split; [done|apply Hw, never_raised_DanglingReference]].
  destruct Hg1 as [Hpl Hh]. destruct (Hh _ _ Hp) as [Hc Hs].
  assert (on_board g1) as Hg1 by done.
  destruct (Z.gtb_spec (Player.turnsToSkip p) 0).
  - unfold bind at 1, store at 1, modify at 1. unfold bind at 1.
    match goal with |- context [_advanceCurrentPlayer ?s] => set (g2 := s) end.
    assert (on_board g2) as Hg2 by (apply on_board_store; simpl; [done..|lia]).
    specialize (Hadv g2 Hg2 Hne).
    by destruct (_advanceCurrentPlayer g2).
  - pose proof (safe_roll_and_move cur g1 Hg1) as Hroll.
    unfold bind at 1.
    destruct (roll_and_move _ _ _ g1) as [moved g2|e g2]; [|split; [|apply Hw]; tauto].
    pose proof (Hmain moved g2 Hroll) as Hloop.
    unfold bind at 1.
    destruct (main_loop _ _ _ _ g2) as [[w|] g3|e g3]; [done| |done].
    unfold bind at 1, everyoneLost at 1, gets at 1.
    destruct (bool_decide_reflect (Z.of_nat (length (players g3)) = 0)) as [Hz|Hz];
      [done|].
    unfold bind at 1.
    assert (players g3 ≠ []) as Hne3 by (intros Hnil; by rewrite Hnil in Hz).
    specialize (Hadv g3 Hloop Hne3).
    by destruct (_advanceCurrentPlayer g3).
Qed.

(** A turn keeps the players on the board, and raises neither
    AttributeError nor ZeroDivisionError. *)
Lemma safe_doTurn fuel :
  safe (@on_board RNG) never_in_a_turn
    (doTurn randint set_iter (call_effect randint getrandbits)
       call_persistent fuel).
Proof.
  apply safe_doTurn_with; [by intros e (? & ? & ?)|].
  intros mps. apply safe_main_loop.
Qed.

End OnBoardTurn.

(** ** The main loop of a turn of the game ends *)

Section Frames.
Context {RNG : Type}.
Context (randint : Z → Z → RNG → Z * RNG).
Context (getrandbits : Z → RNG → Z * RNG).
Implicit Types (g : Game RNG EffectFunc PersistentEffectFunc).

Lemma d6_heap player g roll g' :
  d6 randint player g = Ok roll g' → heap g' = heap g.
Proof.
  unfold d6, showPlayer, deref, logging_info, bind, ret, gets, modify.
  simpl. destruct (randint 1 6 (rng g)). simpl.
  destruct (heap g !! player); [|done]. by intros [= _ <-].
Qed.

Lemma coin_heap player g flip g' :
  coin getrandbits player g = Ok flip g' → heap g' = heap g.
Proof.
  unfold coin, showPlayer, deref, logging_info, bind, ret, gets, modify.
  simpl. destruct (getrandbits 1 (rng g)). simpl.
  destruct (heap g !! player); [|done]. by intros [= _ <-].
Qed.

Lemma comprehension_d6_heap (l : list Z) g rolls g' :
  comprehension l (d6 randint) g = Ok rolls g' → heap g' = heap g.
Proof.
  revert g rolls. induction l as [|x l IH]; intros g rolls H; simpl in H.
  - by inv_run H.
  - inv_bind H as r g1 H1 H. inv_bind H as rs g2 H2 H. inv_run H.
    apply d6_heap in H1. apply IH in H2. congruence.
Qed.

Lemma losePlayer_heap player g g' :
  losePlayer player g = Ok tt g' → heap g' = heap g.
Proof.
  unfold losePlayer, _rewindCurrentPlayer, _lastPlayerOffset,
    _nextPlayerOffset, players_pop, py_mod, of_option, bind, ret, raise, gets,
    modify.
  simpl. intros H. repeat (case_match; simplify_eq/=; try done).
Qed.

(** A move that returns: the player object it leaves. *)
Lemma move_Ok_heap self step g g' :
  move self step g = Ok tt g' →
  ∃ p, heap g !! self = Some p
       ∧ heap g' = <[self := after_move (board_length g) p step]> (heap g).
Proof.
  intros H. destruct (move_state_of g self step) as [l Hst].
  rewrite H in Hst. simpl in Hst. subst g'. simpl.
  destruct (heap g !! self) as [p|] eqn:Hp; [eauto|].
  exfalso. revert H.
  unfold move, getCurrentPlace, deref, bind, ret.
  destruct (step >? 0); [|destruct (step <? 0)]; rewrite ?Hp; simpl;
    rewrite ?Hp; done.
Qed.

End Frames.

Lemma place_index_cases (c : Z) :
  0 ≤ c ≤ 48 →
  c = 0 ∨ c = 1 ∨ c = 2 ∨ c = 3 ∨ c = 4 ∨ c = 5 ∨ c = 6 ∨ c = 7 ∨ c = 8 ∨ c = 9 ∨ c = 10 ∨ c = 11 ∨ c = 12 ∨ c = 13 ∨ c = 14 ∨ c = 15 ∨ c = 16 ∨ c = 17 ∨ c = 18 ∨ c = 19 ∨ c = 20 ∨ c = 21 ∨ c = 22 ∨ c = 23 ∨ c = 24 ∨ c = 25 ∨ c = 26 ∨ c = 27 ∨ c = 28 ∨ c = 29 ∨ c = 30 ∨ c = 31 ∨ c = 32 ∨ c = 33 ∨ c = 34 ∨ c = 35 ∨ c = 36 ∨ c = 37 ∨ c = 38 ∨ c = 39 ∨ c = 40 ∨ c = 41 ∨ c = 42 ∨ c = 43 ∨ c = 44 ∨ c = 45 ∨ c = 46 ∨ c = 47 ∨ c = 48.
Proof. lia. Qed.

Ltac place_cases c H :=
  let Hc := fresh "Hc" in
  pose proof (place_index_cases c H) as Hc;
  repeat (destruct Hc as [Hc|Hc]).

(** The landing effects of [BOARD], by place. *)
Lemma board_effect_cases (c : Z) place f :
  0 ≤ c ≤ 48 →
  py_getitem board_places c = Some place →
  Place.effect place = Some f →
  (c, f) ∈ [(4, effect_4); (9, effect_9); (13, effect_13); (18, effect_18);
            (23, effect_23); (25, effect_25); (31, effect_31); (33, effect_33);
            (40, effect_40); (44, effect_44); (45, effect_45); (46, effect_46);
            (47, effect_47); (48, effect_48)].
Proof.
  intros Hc Hplace Hf. place_cases c Hc; subst c;
    vm_compute in Hplace; injection Hplace as <-; simpl in Hf;
    first [discriminate Hf|injection Hf as <-];
    repeat first [by left|right].
Qed.

(** Eighteen places back from a place of the board, as [move] goes: a
    place from which at most two more rounds follow. *)
Lemma rank_back_18 (c : Z) :
  0 ≤ c ≤ 48 →
  (rank (c + (if c + -18 <? 0 then c else -18))%Z < 3)%nat.
Proof. intros Hc. place_cases c Hc; subst c; vm_compute; lia. Qed.

(** A roll forward from place 9: a place with no round to follow. *)
Lemma rank_forward_from_9 (r : Z) :
  1 ≤ r ≤ 6 → rank (9 + (if 9 + r >=? 49 then 49 - 1 - 9 else r)) = 0%nat.
Proof.
  intros Hr. assert (r = 1 ∨ r = 2 ∨ r = 3 ∨ r = 4 ∨ r = 5 ∨ r = 6) as Hc by lia.
  repeat (destruct Hc as [Hc|Hc]); by subst r.
Qed.

Section Ranks.
Context {RNG : Type}.
Context (randint : Z → Z → RNG → Z * RNG).
Context (getrandbits : Z → RNG → Z * RNG).
Hypothesis die : die_in_range randint.
Implicit Types (g : Game RNG EffectFunc PersistentEffectFunc).
Implicit Types (place : Place.t EffectFunc PersistentEffectFunc).

Lemma place_of_same_heap g g' :
  heap g' = heap g → ∀ r, place_of g' r = place_of g r.
Proof. unfold place_of. by intros ->. Qed.

Lemma on_board_length g : on_board g → board_length g = 49.
Proof. intros [Hpl _]. unfold board_length. by rewrite Hpl. Qed.

(** An effect that moves nobody. *)
Lemma no_move_rank g g' (bound : nat) :
  heap g' = heap g →
  (∀ r, r ∈ @nil Z → (rounds_left g' r < bound)%nat)
  ∧ (∀ r, r ∉ @nil Z → place_of g' r = place_of g r).
Proof.
  intros Hh. split.
  - intros r Hr. by apply elem_of_nil in Hr.
  - intros r _. by apply place_of_same_heap.
Qed.

(** An effect that moves the player it is called for, and nobody else. *)
Lemma one_move_rank g g0 mp p step g' (bound : nat) :
  heap g0 = heap g → on_board g0 → heap g !! mp = Some p →
  move mp step g0 = Ok tt g' →
  (rank (Player.currentPlace (after_move 49 p step)) < bound)%nat →
  (∀ r, r ∈ [mp] → (rounds_left g' r < S bound)%nat)
  ∧ (∀ r, r ∉ [mp] → place_of g' r = place_of g r).
Proof.
  intros Hh Hg0 Hp Hm Hrank.
  destruct (move_Ok_heap _ _ _ _ Hm) as (p0 & Hp0 & Hh').
  rewrite Hh, Hp in Hp0. injection Hp0 as <-.
  rewrite (on_board_length _ Hg0), Hh in Hh'.
  split.
  - intros r Hr. apply list_elem_of_singleton in Hr as ->.
    unfold rounds_left, place_of. rewrite Hh', lookup_insert_eq. simpl. lia.
  - intros r Hr. rewrite list_elem_of_singleton in Hr.
    unfold place_of. by rewrite Hh', lookup_insert_ne.
Qed.

(** The loop of [effect_48] when it returns: a winner, or the player sent
    twenty places back. *)
Lemma effect_48_loop_Ok rolls myRoll player g res g' :
  effect_48_loop rolls myRoll player g = Ok res g' →
  (res = Winner player ∧ g' = g)
  ∨ (res = Moved [player] ∧ move player (-20) g = Ok tt g').
Proof.
  induction rolls as [|o rolls IH]; simpl; intros H.
  - inv_run H. by left.
  - destruct (myRoll <=? o); [|by apply IH].
    inv_bind H as u g1 Hm H. inv_run H. destruct u. by right.
Qed.

(** The players [effect_33] sends eighteen places back. *)
Lemma for_each_back_18 (l : list Z) g g' :
  on_board g →
  for_each l (λ r, move r (-18)) g = Ok tt g' →
  (∀ r, r ∈ l → (rounds_left g' r < 4)%nat)
  ∧ (∀ r, r ∉ l → place_of g' r = place_of g r).
Proof.
  revert g. induction l as [|x l IH]; intros g Hg H; simpl in H.
  - inv_run H. split; [intros r Hr; by apply elem_of_nil in Hr|done].
  - inv_bind H as u g1 Hm H. destruct u.
    assert (on_board g1) as Hg1.
    { eapply (safe_Ok _ _ _ _ _ _ (safe_move x (-18) ltac:(lia)) Hg Hm). }
    destruct (IH _ Hg1 H) as [Hin Hout].
    destruct (move_Ok_heap _ _ _ _ Hm) as (p & Hp & Hh).
    rewrite (on_board_length _ Hg) in Hh.
    destruct Hg as [_ Hb]. destruct (Hb _ _ Hp) as [Hc _].
    split.
    + intros r Hr. destruct (decide (r ∈ l)) as [Hl|Hl]; [by apply Hin|].
      apply elem_of_cons in Hr as [->|Hr]; [|done].
      unfold rounds_left. rewrite (Hout _ Hl).
      unfold place_of. rewrite Hh, lookup_insert_eq. simpl.
      pose proof (rank_back_18 _ Hc). lia.
    + intros r Hr. apply not_elem_of_cons in Hr as [Hx Hl].
      rewrite (Hout _ Hl). unfold place_of. by rewrite Hh, lookup_insert_ne.
Qed.

End Ranks.

Section Rounds.
Context {RNG : Type}.
Context (randint : Z → Z → RNG → Z * RNG).
Context (getrandbits : Z → RNG → Z * RNG).
Context (set_iter : list Z → list Z).
Hypothesis die : die_in_range randint.
Hypothesis walk : walks_the_set set_iter.
Implicit Types (g : Game RNG EffectFunc PersistentEffectFunc).
Implicit Types (place : Place.t EffectFunc PersistentEffectFunc).

Ltac one_move Hg Hp Hm Hcp :=
  eapply (one_move_rank _ _ _ _ _ _ _ eq_refl Hg Hp Hm);
  unfold after_move; simpl; rewrite Hcp; vm_compute; lia.

(** The effect of the place a player stands on returns players with fewer
    rounds to follow than that player, and moves nobody else. *)
Lemma effect_lowers_rank g mp p place f res g' :
  on_board g →
  heap g !! mp = Some p →
  py_getitem board_places (Player.currentPlace p) = Some place →
  Place.effect place = Some f →
  call_effect randint getrandbits f place mp g = Ok res g' →
  match res with
  | Winner _ => True
  | Moved l =>
      (∀ r, r ∈ l → (rounds_left g' r < S (rank (Player.currentPlace p)))%nat)
      ∧ (∀ r, r ∉ l → place_of g' r = place_of g r)
  end.
Proof.
  intros Hg Hp Hplace Hf Hrun.
  pose proof Hg as [Hpl Hb]. destruct (Hb _ _ Hp) as [Hc _].
  pose proof (board_effect_cases _ _ _ Hc Hplace Hf) as Hcase.
  repeat (apply elem_of_cons in Hcase as [[= Hcp ->]|Hcase]);
    [..|by apply elem_of_nil in Hcase]; simpl in Hrun; rewrite Hcp.
  - (* effect_4 *)
    unfold do_effect_4 in Hrun.
    inv_bind Hrun as u g1 Hm Hrun. inv_run Hrun. destruct u.
    one_move Hg Hp Hm Hcp.
  - (* effect_9 *)
    unfold do_effect_9 in Hrun.
    inv_bind Hrun as flip g1 Hcoin Hrun.
    pose proof (safe_Ok _ _ _ _ _ _ (safe_coin getrandbits mp) Hg Hcoin) as Hg1.
    apply coin_heap in Hcoin.
    destruct flip.
    + inv_bind Hrun as roll g2 Hd6 Hrun.
      pose proof (safe_Ok _ _ _ _ _ _ (safe_d6 randint mp) Hg1 Hd6) as Hg2.
      pose proof (d6_in_range _ die _ _ _ _ Hd6) as Hroll.
      apply d6_heap in Hd6.
      inv_bind Hrun as u g3 Hm Hrun. inv_run Hrun. destruct u.
      eapply (one_move_rank g g2); [congruence|done..|].
      unfold after_move. destruct (Z.gtb_spec roll 0); [|lia]. simpl.
      rewrite Hcp, (rank_forward_from_9 _ Hroll). vm_compute. lia.
    + inv_run Hrun. by apply no_move_rank.
  - (* effect_13 *)
    unfold do_effect_13 in Hrun.
    inv_bind Hrun as p0 g1 Hd Hrun. unfold deref in Hd. rewrite Hp in Hd.
    injection Hd as <- <-.
    inv_bind Hrun as u g2 Hs Hrun. inv_run Hrun.
    unfold store, modify in Hs. simplify_eq/=.
    split; [intros r Hr; by apply elem_of_nil in Hr|].
    intros r _. unfold place_of. simpl.
    destruct (decide (mp = r)) as [<-|Hne].
    + by rewrite lookup_insert_eq, Hp.
    + by rewrite lookup_insert_ne.
  - (* effect_18 *)
    unfold do_effect_18 in Hrun.
    inv_bind Hrun as u g1 Hm Hrun. inv_run Hrun. destruct u.
    one_move Hg Hp Hm Hcp.
  - (* effect_23 *)
    unfold do_effect_23 in Hrun.
    inv_bind Hrun as u g1 Hm Hrun. inv_run Hrun. destruct u.
    one_move Hg Hp Hm Hcp.
  - (* effect_25 *)
    unfold do_effect_25 in Hrun.
    inv_bind Hrun as u g1 Hm Hrun. inv_run Hrun. destruct u.
    one_move Hg Hp Hm Hcp.
  - (* effect_31 *)
    unfold do_effect_31 in Hrun.
    inv_bind Hrun as flip g1 Hcoin Hrun.
    pose proof (safe_Ok _ _ _ _ _ _ (safe_coin getrandbits mp) Hg Hcoin) as Hg1.
    apply coin_heap in Hcoin.
    destruct flip.
    + inv_bind Hrun as u g2 Hm Hrun. inv_run Hrun. destruct u.
      eapply (one_move_rank g g1); [done..|].
      unfold after_move. simpl. rewrite Hcp. vm_compute. lia.
    + inv_run Hrun. by apply no_move_rank.
  - (* effect_33 *)
    unfold do_effect_33 in Hrun.
    inv_bind Hrun as r1 g1 H1 Hrun.
    pose proof (safe_Ok _ _ _ _ _ _ (safe_d6 randint mp) Hg H1) as Hg1.
    apply d6_heap in H1.
    inv_bind Hrun as r2 g2 H2 Hrun.
    pose proof (safe_Ok _ _ _ _ _ _ (safe_d6 randint mp) Hg1 H2) as Hg2.
    apply d6_heap in H2.
    inv_bind Hrun as r3 g3 H3 Hrun.
    pose proof (safe_Ok _ _ _ _ _ _ (safe_d6 randint mp) Hg2 H3) as Hg3.
    apply d6_heap in H3.
    assert (heap g3 = heap g) as Hh3 by congruence.
    destruct (forallb _ _).
    + inv_bind Hrun as ps g4 Hps Hrun. inv_run Hps.
      inv_bind Hrun as u g5 Hfor Hrun. inv_run Hrun. destruct u.
      destruct (for_each_back_18 _ _ _ Hg3 Hfor) as [Hin Hout].
      split.
      * intros r Hr. specialize (Hin r Hr). vm_compute. vm_compute in Hin. lia.
      * intros r Hr. rewrite (Hout r Hr). by apply place_of_same_heap.
    + inv_run Hrun. by apply no_move_rank.
  - (* effect_40 *)
    unfold do_effect_40 in Hrun.
    inv_bind Hrun as r1 g1 H1 Hrun. apply d6_heap in H1.
    destruct (bool_decide _).
    + inv_bind Hrun as u g2 Hl Hrun. inv_run Hrun. destruct u.
      apply losePlayer_heap in Hl. apply no_move_rank. congruence.
    + inv_run Hrun. by apply no_move_rank.
  - (* effect_44 *)
    unfold do_effect_44 in Hrun.
    inv_bind Hrun as u g1 Hm Hrun. inv_run Hrun. destruct u.
    one_move Hg Hp Hm Hcp.
  - (* effect_45 *)
    unfold do_effect_45 in Hrun.
    inv_bind Hrun as u g1 Hm Hrun. inv_run Hrun. destruct u.
    one_move Hg Hp Hm Hcp.
  - (* effect_46 *)
    unfold do_effect_46 in Hrun.
    inv_bind Hrun as u g1 Hm Hrun. inv_run Hrun. destruct u.
    one_move Hg Hp Hm Hcp.
  - (* effect_47 *)
    unfold do_effect_47 in Hrun.
    inv_bind Hrun as u g1 Hm Hrun. inv_run Hrun. destruct u.
    one_move Hg Hp Hm Hcp.
  - (* effect_48 *)
    unfold do_effect_48 in Hrun.
    inv_bind Hrun as ps g1 Hps Hrun. inv_run Hps.
    inv_bind Hrun as rolls g2 Hrolls Hrun.
    assert (on_board g2) as Hg2.
    { refine (safe_Ok _ _ _ _ _ _ (safe_comprehension _ _ _ _ _) Hg Hrolls).
      intros x. apply safe_d6. }
    apply comprehension_d6_heap in Hrolls.
    inv_bind Hrun as my g3 Hmy Hrun.
    pose proof (safe_Ok _ _ _ _ _ _ (safe_d6 randint mp) Hg2 Hmy) as Hg3.
    apply d6_heap in Hmy.
    destruct (effect_48_loop_Ok _ _ _ _ _ _ Hrun) as [[-> ->]|[-> Hm]]; [done|].
    eapply (one_move_rank g g3); [congruence|done..|].
    unfold after_move. simpl. rewrite Hcp. vm_compute. lia.
Qed.

Lemma getCurrentPlace_Ok g mp place g1 :
  getCurrentPlace mp g = Ok place g1 →
  g1 = g ∧ ∃ p, heap g !! mp = Some p
              ∧ py_getitem (places g) (Player.currentPlace p) = Some place.
Proof.
  unfold getCurrentPlace, deref, of_option, bind, gets, raise.
  destruct (heap g !! mp) as [p|]; [|done].
  destruct (py_getitem _ _) as [q|] eqn:Hq; [|done].
  intros [= <- <-]. split; [done|]. by exists p.
Qed.

Lemma elem_of_foldl_py_set_add (l acc : list Z) x :
  x ∈ foldl py_set_add acc l ↔ x ∈ acc ∨ x ∈ l.
Proof.
  revert acc. induction l as [|y l IH]; intros acc; simpl.
  - rewrite elem_of_nil. tauto.
  - rewrite IH, elem_of_cons. unfold py_set_add.
    destruct (decide (y ∈ acc)) as [Hy|Hy].
    + split; [tauto|]. intros [?|[->|?]]; tauto.
    + rewrite elem_of_app, list_elem_of_singleton. tauto.
Qed.

Lemma rounds_left_place g g' r :
  place_of g' r = place_of g r → rounds_left g' r = rounds_left g r.
Proof. unfold rounds_left. by intros ->. Qed.

(** One pass over the moved players: when each of them has at most [S d]
    rounds to follow, the players collected for the next pass have at most
    [d]. *)
Lemma moved_loop_ranks (d : nat) mps acc g new g' :
  on_board g →
  (∀ r, r ∈ mps → (rounds_left g r ≤ S d)%nat) →
  (∀ r, r ∈ acc → (rounds_left g r ≤ d)%nat) →
  moved_loop (call_effect randint getrandbits) mps acc g = Ok (inr new) g' →
  on_board g' ∧ ∀ r, r ∈ new → (rounds_left g' r ≤ d)%nat.
Proof.
  revert acc g. induction mps as [|mp mps IH]; intros acc g Hg Hmps Hacc H;
    simpl in H.
  - unfold ret in H. simplify_eq. by split.
  - inv_bind H as place g1 Hplace H.
    apply getCurrentPlace_Ok in Hplace as (-> & p & Hp & Hplace).
    unfold hasEffect, executeEffect in H.
    destruct (Place.effect place) as [f|] eqn:Hf.
    + inv_bind H as moved g2 Hcall H.
      pose proof (safe_Ok _ _ _ _ _ _ (safe_call_effect randint getrandbits die f place mp)
                    Hg Hcall) as Hg2.
      pose proof Hg as [Hpl _]. rewrite Hpl in Hplace.
      pose proof (effect_lowers_rank _ _ _ _ _ _ _ Hg Hp Hplace Hf Hcall) as Hl.
      destruct moved as [l|w]; [|unfold ret in H; by simplify_eq].
      destruct Hl as [Hin Hout].
      assert (rank (Player.currentPlace p) ≤ d)%nat as Hd.
      { specialize (Hmps mp (list_elem_of_here _ _)).
        unfold rounds_left, place_of in Hmps. rewrite Hp in Hmps.
        simpl in Hmps. lia. }
      apply (IH _ _ Hg2) in H; [done| |].
      * intros r Hr. destruct (decide (r ∈ l)) as [Hrl|Hrl].
        -- specialize (Hin r Hrl). lia.
        -- rewrite (rounds_left_place _ _ _ (Hout r Hrl)).
           apply Hmps. by right.
      * intros r Hr. apply elem_of_foldl_py_set_add in Hr.
        destruct (decide (r ∈ l)) as [Hrl|Hrl].
        -- specialize (Hin r Hrl). lia.
        -- rewrite (rounds_left_place _ _ _ (Hout r Hrl)).
           apply Hacc. tauto.
    + apply (IH _ _ Hg) in H; [done| |done].
      intros r Hr. apply Hmps. by right.
Qed.

(** On the board nobody has more than five rounds to follow. *)
Lemma rounds_left_bound g r : on_board g → (rounds_left g r ≤ 5)%nat.
Proof.
  intros [_ Hb]. unfold rounds_left, place_of.
  destruct (heap g !! r) as [p|] eqn:Hp; simpl; [|lia].
  destruct (Hb _ _ Hp) as [Hc _].
  pose proof (place_index_cases _ Hc) as Hcase.
  repeat (destruct Hcase as [Hcase|Hcase]); rewrite Hcase; vm_compute; lia.
Qed.

(** The main loop is through after as many rounds as the moved players
    have left to follow. *)
Lemma main_loop_ends (fuel d : nat) mps g e g' :
  (d < fuel)%nat →
  on_board g →
  (∀ r, r ∈ mps → (rounds_left g r ≤ d)%nat) →
  main_loop set_iter (call_effect randint getrandbits) fuel mps g = Raise e g' →
  e ≠ OutOfFuel.
Proof.
  revert d mps g. induction fuel as [|fuel IH]; intros d mps g Hd Hg Hmps H;
    [lia|].
  simpl in H. case_bool_decide as Hlen; [|done].
  unfold bind in H at 1.
  destruct (moved_loop _ _ _ g) as [[w|new] g1|e1 g1] eqn:Hloop.
  - done.
  - destruct d as [|d].
    + (* nobody has a round to follow: every moved player is unknown *)
      destruct (set_iter mps) as [|x xs] eqn:Hiter.
      * simpl in Hloop. unfold ret in Hloop. simplify_eq.
        destruct fuel; simpl in H; done.
      * exfalso. simpl in Hloop.
        inv_bind Hloop as place g2 Hplace Hloop.
        apply getCurrentPlace_Ok in Hplace as (_ & p & Hp & _).
        assert (x ∈ mps) as Hx by (apply walk; rewrite Hiter; by left).
        specialize (Hmps x Hx). unfold rounds_left, place_of in Hmps.
        rewrite Hp in Hmps. simpl in Hmps. lia.
    + assert (on_board g1 ∧ ∀ r, r ∈ new → (rounds_left g1 r ≤ d)%nat)
        as [Hg1 Hnew].
      { apply (moved_loop_ranks d (set_iter mps) [] g new g1 Hg);
          [|by intros r Hr; apply elem_of_nil in Hr|done].
        intros r Hr. apply Hmps. by apply walk. }
      eapply (IH d new g1); [lia|done|done|done].
  - injection H as <- <-.
    destruct (safe_Raise _ _ _ _ _ _
                (safe_moved_loop randint getrandbits die _ _) Hg Hloop)
      as (_ & _ & _ & Hfuel).
    done.
Qed.

(** With enough fuel for the rounds that are left, the amount of fuel
    does not show in the result of the main loop. *)
Lemma main_loop_enough (fuel fuel' d : nat) mps g :
  (d < fuel)%nat → (d < fuel')%nat →
  on_board g →
  (∀ r, r ∈ mps → (rounds_left g r ≤ d)%nat) →
  main_loop set_iter (call_effect randint getrandbits) fuel mps g
  = main_loop set_iter (call_effect randint getrandbits) fuel' mps g.
Proof.
  revert fuel' d mps g.
  induction fuel as [|fuel IH]; intros fuel' d mps g Hd Hd' Hg Hmps; [lia|].
  destruct fuel' as [|fuel']; [lia|].
  simpl. case_bool_decide as Hlen; [|done].
  unfold bind.
  destruct (moved_loop _ _ _ g) as [[w|new] g1|e1 g1] eqn:Hloop; [done| |done].
  destruct d as [|d].
  - destruct (set_iter mps) as [|x xs] eqn:Hiter.
    + simpl in Hloop. unfold ret in Hloop. simplify_eq.
      by destruct fuel, fuel'.
    + exfalso. simpl in Hloop.
      inv_bind Hloop as place g2 Hplace Hloop.
      apply getCurrentPlace_Ok in Hplace as (_ & p & Hp & _).
      assert (x ∈ mps) as Hx by (apply walk; rewrite Hiter; by left).
      specialize (Hmps x Hx). unfold rounds_left, place_of in Hmps.
      rewrite Hp in Hmps. simpl in Hmps. lia.
  - assert (on_board g1 ∧ ∀ r, r ∈ new → (rounds_left g1 r ≤ d)%nat)
      as [Hg1 Hnew].
    { apply (moved_loop_ranks d (set_iter mps) [] g new g1 Hg);
        [|by intros r Hr; apply elem_of_nil in Hr|done].
      intros r Hr. apply Hmps. by apply walk. }
    apply (IH fuel' d new g1); [lia|lia|done|done].
Qed.

Lemma safe_main_loop_fuel fuel mps :
  (6 ≤ fuel)%nat →
  safe (@on_board RNG) never_raised
    (main_loop set_iter (call_effect randint getrandbits) fuel mps).
Proof.
  intros Hfuel g Hg.
  pose proof (safe_main_loop randint getrandbits set_iter die fuel mps g Hg)
    as Hsafe.
  destruct (main_loop _ _ _ _ g) as [w g'|e g'] eqn:Hrun; [done|].
  destruct Hsafe as (Hg' & Ha & Hz). split; [done|].
  split; [done|]. split; [done|].
  apply (main_loop_ends fuel 5 mps g e g'); [lia|done| |done].
  intros r _. by apply rounds_left_bound.
Qed.

Lemma bind_agree {S A B} (I : S → Prop) (X : exn → Prop)
    (m : M S A) (k k' : A → M S B) s :
  safe I X m → I s → (∀ a s', I s' → k a s' = k' a s') →
  bind m k s = bind m k' s.
Proof.
  intros Hm Hs Hk. specialize (Hm s Hs). unfold bind.
  destruct (m s) as [a s'|e s']; [by apply Hk|done].
Qed.

End Rounds.

Section TurnEnds.
Context {RNG : Type}.
Context (randint : Z → Z → RNG → Z * RNG).
Context (getrandbits : Z → RNG → Z * RNG).
Context (set_iter : list Z → list Z).
Implicit Types (g : Game RNG EffectFunc PersistentEffectFunc).

(** X15: on BOARD, with a die in 1..6, a turn leaves every player on a place
    0..48 of the board with no negative number of turns to skip, whether it
    returns or raises; and it raises neither AttributeError (an effect
    called on a place that has none) nor ZeroDivisionError (the modulus of
    an empty roster). *)
Theorem doTurn_keeps_the_board fuel g :
  die_in_range randint →
  on_board g →
  on_board (state_of (doTurn randint set_iter
                        (call_effect randint getrandbits) call_persistent
                        fuel g))
  ∧ ∀ e g', doTurn randint set_iter (call_effect randint getrandbits)
              call_persistent fuel g = Raise e g' →
            e ≠ AttributeError ∧ e ≠ ZeroDivisionError.
Proof.
  intros die Hg.
  pose proof (safe_doTurn randint getrandbits set_iter die fuel g Hg) as H.
  destruct (doTurn _ _ _ _ _ g) as [r g1|e g1]; simpl.
  - by split.
  - destruct H as [Hg1 He]. split; [done|]. by intros e' g' [= <- <-].
Qed.

(** X16: the [while] loop of a turn, which nothing bounds in the source, ends
    on BOARD: whatever the draws and the order in which the moved players
    are walked, six rounds are enough, so a turn run with fuel for six
    rounds never stops for lack of fuel. *)
Theorem doTurn_ends fuel g :
  die_in_range randint →
  walks_the_set set_iter →
  on_board g →
  (6 ≤ fuel)%nat →
  ¬ out_of_fuel (doTurn randint set_iter (call_effect randint getrandbits)
                   call_persistent fuel g).
Proof.
  intros die walk Hg Hfuel Hout.
  assert (safe (@on_board RNG) never_raised
            (doTurn randint set_iter (call_effect randint getrandbits)
               call_persistent fuel)) as Hsafe.
  { apply safe_doTurn_with; [done|done|].
    intros mps. by apply safe_main_loop_fuel. }
  specialize (Hsafe g Hg).
  destruct (doTurn _ _ _ _ _ g) as [r g1|e g1]; [done|].
  destruct Hsafe as (_ & _ & _ & He). by destruct e.
Qed.

(** X17: fuel beyond six rounds changes nothing: on BOARD a turn run with any
    fuel of six or more gives the result and the state of the turn run with
    fuel six. *)
Theorem doTurn_fuel_irrelevant fuel g :
  die_in_range randint →
  walks_the_set set_iter →
  on_board g →
  (6 ≤ fuel)%nat →
  doTurn randint set_iter (call_effect randint getrandbits) call_persistent
    fuel g
  = doTurn randint set_iter (call_effect randint getrandbits) call_persistent
      6 g.
Proof.
  intros die walk Hg Hfuel. unfold doTurn.
  eapply (bind_agree _ never_raised); [safe_tac|done|]. intros [] g1 Hg1.
  eapply (bind_agree _ never_raised); [safe_tac|done|]. intros n g2 Hg2.
  eapply (bind_agree _ never_raised); [safe_tac|done|]. intros [] g3 Hg3.
  eapply (bind_agree _ never_raised);
    [unfold getCurrentTurnPlayer; safe_tac|done|]. intros cur g4 Hg4.
  eapply (bind_agree _ never_raised); [apply safe_deref|done|].
  intros p g5 Hg5.
  destruct (Player.turnsToSkip p >? 0); [done|].
  eapply (bind_agree _ never_raised);
    [by apply safe_roll_and_move|done|]. intros mps g6 Hg6.
  unfold bind at 1 3.
  rewrite (main_loop_enough randint getrandbits set_iter die walk fuel 6 5);
    [done|lia|lia|done|].
  intros r _. by apply rounds_left_bound.
Qed.

End TurnEnds.

(** ** Who stands on a place *)

Lemma board_place_id (c : Z) place :
  0 ≤ c ≤ 48 → py_getitem board_places c = Some place → Place.id place = c.
Proof.
  intros Hc H. place_cases c Hc; subst c; vm_compute in H;
    by injection H as <-.
Qed.

Section WhoIsThere.
Context {RNG : Type}.
Implicit Types (g : Game RNG EffectFunc PersistentEffectFunc).
Implicit Types (place : Place.t EffectFunc PersistentEffectFunc).

Lemma getCurrentPlace_on_board g r p :
  on_board g → heap g !! r = Some p →
  ∃ q, getCurrentPlace r g = Ok q g ∧ Place.id q = Player.currentPlace p.
Proof.
  intros [Hpl Hb] Hp. destruct (Hb _ _ Hp) as [Hc _].
  unfold getCurrentPlace, deref, bind, gets, of_option. rewrite Hp, Hpl.
  destruct (py_getitem board_places (Player.currentPlace p)) as [q|] eqn:Hq.
  - exists q. split; [done|]. by apply board_place_id.
  - exfalso. unfold py_getitem in Hq. rewrite decide_True in Hq by lia.
    apply lookup_ge_None in Hq. rewrite board_places_length in Hq. lia.
Qed.

Lemma comprehension_if_on_place place g (l : list Z) :
  on_board g → (∀ r, r ∈ l → is_Some (heap g !! r)) →
  comprehension_if l (λ p, q <- getCurrentPlace p ;; ret (Place_eq q place)) g
  = Ok (filter (λ r, place_of g r = Some (Place.id place)) l) g.
Proof.
  intros Hg. induction l as [|x l IH]; intros Hl; [done|].
  destruct (Hl x (list_elem_of_here _ _)) as [p Hp].
  destruct (getCurrentPlace_on_board g x p Hg Hp) as (q & Hq & Hid).
  simpl. unfold bind at 1. unfold bind at 1. rewrite Hq. simpl.
  unfold bind at 1. rewrite IH by (intros r Hr; apply Hl; by right).
  unfold ret, Place_eq. f_equal. rewrite filter_cons.
  assert (place_of g x = Some (Place.id q)) as Hx
    by (unfold place_of; by rewrite Hp, Hid).
  case_bool_decide as Hb; case_decide as Hd; try done.
  - destruct Hd. by rewrite Hx, Hb.
  - destruct Hb. rewrite Hx in Hd. by injection Hd as ->.
Qed.

(** X18: on BOARD, with a player object behind every roster entry,
    [getPlayersInPlace] returns the roster players standing on the place,
    in roster order, and changes nothing. *)
Theorem getPlayersInPlace_lists_the_place place g :
  on_board g →
  roster_alive g →
  getPlayersInPlace place g
  = Ok (filter (λ r, place_of g r = Some (Place.id place)) (players g)) g.
Proof.
  intros Hg Hl. unfold getPlayersInPlace. unfold bind at 1, gets at 1.
  by apply comprehension_if_on_place.
Qed.

(** X19: a persistent effect of the catalogue that reports no activation has
    moved nobody and left the game as it was. *)
Theorem untriggered_effect_changes_nothing f place player roll g l g' :
  call_persistent f place player roll g = Ok (l, false) g' →
  l = [] ∧ g' = g.
Proof.
  intros Hrun. destruct f as [n| |]; simpl in Hrun.
  - unfold ifAnyoneRollsN in Hrun. case_bool_decide as Hroll.
    + inv_bind Hrun as ps g1 H1 Hrun. inv_bind Hrun as u g2 H2 Hrun.
      unfold ret in Hrun. by simplify_eq.
    + unfold ret in Hrun. by simplify_eq.
  - unfold do_effect_15_persistent in Hrun. case_bool_decide as Hroll.
    + inv_bind Hrun as ps g1 H1 Hrun. inv_bind Hrun as u g2 H2 Hrun.
      unfold ret in Hrun. by simplify_eq.
    + unfold ret in Hrun. by simplify_eq.
  - unfold do_effect_20_persistent in Hrun.
    inv_bind Hrun as c g1 H1 Hrun. apply getCurrentPlace_Ok in H1 as [-> _].
    destruct (Place_eq c place).
    + inv_bind Hrun as u g2 H2 Hrun. unfold ret in Hrun. by simplify_eq.
    + unfold ret in Hrun. by simplify_eq.
Qed.

End WhoIsThere.

(** ** The script *)

Lemma ranged_die : die_in_range ranged_randint.
Proof.
  intros [|x r]; simpl; [lia|].
  change (6 - 1 + 1) with 6. pose proof (Z.mod_pos_bound (x - 1) 6). lia.
Qed.

Lemma walks_the_set_id : walks_the_set (λ s, s).
Proof. by intros s x. Qed.

Lemma board_game_on_board draws roster offset :
  Forall (λ p, 0 ≤ Player.currentPlace p ≤ 48 ∧ 0 ≤ Player.turnsToSkip p)
    roster →
  on_board (board_game draws roster offset).
Proof.
  intros Hr. split; [reflexivity|]. intros r p Hp. simpl in Hp.
  apply elem_of_list_to_map_2, list_elem_of_fmap in Hp as (q & [= -> ->] & Hq).
  rewrite Forall_forall in Hr. by apply Hr.
Qed.

Section Script.
Context {RNG : Type}.
Context (Random : Z → RNG).
Context (randint : Z → Z → RNG → Z * RNG).
Context (getrandbits : Z → RNG → Z * RNG).
Context (set_iter : list Z → list Z).
Context (json_dumps : list (Z * string * Z * Z) → string).
Hypothesis die : die_in_range randint.

Lemma newGame_on_board log0 seed (names : list string) :
  on_board (newGame (EffectFunc := EffectFunc)
              (PersistentEffectFunc := PersistentEffectFunc)
              Random log0 seed names BOARD).
Proof.
  split; [reflexivity|]. intros r p Hp. simpl in Hp.
  apply elem_of_list_to_map_2, list_elem_of_fmap in Hp as (q & [= -> ->] & Hq).
  apply list_elem_of_fmap in Hq as ([i name] & -> & _). simpl. lia.
Qed.

Lemma safe_play turns fuel :
  safe (@on_board RNG) never_in_a_turn
    (play randint set_iter (call_effect randint getrandbits) call_persistent
       turns fuel).
Proof.
  induction turns as [|turns IH]; simpl.
  - apply safe_raise. by split.
  - apply safe_bind; [by apply safe_doTurn|].
    intros [w| |]; [| |apply IH].
    + eapply safe_weaken; [|apply safe_bind;
                              [apply safe_showPlayer
                              |intros who; apply safe_logging_info]].
      by intros e (? & ? & ?).
    + eapply safe_weaken; [|apply safe_logging_info].
      by intros e (? & ? & ?).
Qed.

Lemma safe_report :
  safe (@on_board RNG) never_in_a_turn (report set_iter json_dumps).
Proof.
  apply (safe_weaken _ never_raised); [by intros e (? & ? & ?)|].
  unfold report.
  apply safe_bind; [apply safe_gets|intros n].
  apply safe_bind; [apply safe_logging_info|intros []].
  apply safe_bind; [apply safe_gets|intros tp].
  apply safe_bind; [|intros sts; apply safe_logging_info].
  apply safe_comprehension. intros x. unfold stats.
  apply safe_bind; [apply safe_deref|intros p; apply safe_ret].
Qed.

(** X20: the script run on BOARD, with a die in 1..6, ends with every player
    on a place 0..48 and with no negative number of turns to skip, for any
    seed, names, draws and bounds on the turns; and it raises neither
    AttributeError nor ZeroDivisionError. *)
Theorem main_keeps_the_board turns fuel seed (names : list string) :
  on_board (state_of (main Random randint set_iter
                        (call_effect randint getrandbits) call_persistent
                        json_dumps turns fuel seed names BOARD))
  ∧ ∀ e g', main Random randint set_iter (call_effect randint getrandbits)
              call_persistent json_dumps turns fuel seed names BOARD
            = Raise e g' →
            e ≠ AttributeError ∧ e ≠ ZeroDivisionError.
Proof.
  unfold main.
  match goal with |- context [(?m ;;; ?k) ?g0] =>
    assert (safe (@on_board RNG) never_in_a_turn (m ;;; k)) as Hsafe
      by (apply safe_bind; [apply safe_play|intros []; apply safe_report]);
    pose proof (Hsafe g0 (newGame_on_board _ _ _)) as H
  end.
  destruct (bind _ _ _) as [u g1|e g1]; simpl.
  - by split.
  - destruct H as [Hg1 He]. split; [done|]. by intros e' g' [= <- <-].
Qed.

End Script.

(** ** Runs of the theorems above *)

(** A rolls 4, lands on place 4 and is sent two places back. *)
Lemma doTurn_keeps_the_board_witness :
  let g := board_game [4] [Player.mk 0 "A" 0 0 0; Player.mk 1 "B" 0 0 0] 0 in
  let turn := doTurn ranged_randint (λ s, s)
                (call_effect ranged_randint replay_getrandbits)
                call_persistent 6 in
  die_in_range ranged_randint
  ∧ on_board g
  ∧ on_board (state_of (turn g))
  ∧ ∀ e g', turn g = Raise e g' → e ≠ AttributeError ∧ e ≠ ZeroDivisionError.
Proof.
  intros g turn.
  assert (on_board g) as Hg
    by (apply board_game_on_board; repeat constructor; simpl; lia).
  split; [exact ranged_die|]. split; [exact Hg|].
  exact (doTurn_keeps_the_board ranged_randint replay_getrandbits (λ s, s) 6 g
           ranged_die Hg).
Defined.

(** A rolls 5 from place 39, lands on place 44 and follows the board
    through 46, 45, 47 and 43: five rounds of the loop. *)
Lemma doTurn_ends_witness :
  let g := board_game [5] [Player.mk 0 "A" 39 39 0; Player.mk 1 "B" 0 0 0] 0 in
  die_in_range ranged_randint
  ∧ walks_the_set (λ s : list Z, s)
  ∧ on_board g
  ∧ (6 ≤ 6)%nat
  ∧ ¬ out_of_fuel (doTurn ranged_randint (λ s, s)
                     (call_effect ranged_randint replay_getrandbits)
                     call_persistent 6 g).
Proof.
  intros g.
  assert (on_board g) as Hg
    by (apply board_game_on_board; repeat constructor; simpl; lia).
  split; [exact ranged_die|]. split; [exact walks_the_set_id|].
  split; [exact Hg|]. split; [lia|].
  apply (doTurn_ends ranged_randint replay_getrandbits (λ s, s) 6 g
           ranged_die walks_the_set_id Hg). lia.
Defined.

Lemma doTurn_fuel_irrelevant_witness :
  let g := board_game [5] [Player.mk 0 "A" 39 39 0; Player.mk 1 "B" 0 0 0] 0 in
  die_in_range ranged_randint
  ∧ walks_the_set (λ s : list Z, s)
  ∧ on_board g
  ∧ (6 ≤ 9)%nat
  ∧ doTurn ranged_randint (λ s, s)
      (call_effect ranged_randint replay_getrandbits) call_persistent 9 g
    = doTurn ranged_randint (λ s, s)
        (call_effect ranged_randint replay_getrandbits) call_persistent 6 g.
Proof.
  intros g.
  assert (on_board g) as Hg
    by (apply board_game_on_board; repeat constructor; simpl; lia).
  split; [exact ranged_die|]. split; [exact walks_the_set_id|].
  split; [exact Hg|]. split; [lia|].
  apply (doTurn_fuel_irrelevant ranged_randint replay_getrandbits (λ s, s) 9 g
           ranged_die walks_the_set_id Hg). lia.
Defined.

(** A and C stand on place 6, B on place 3. *)
Lemma getPlayersInPlace_lists_the_place_witness :
  let g := board_game [] [Player.mk 0 "A" 6 6 0; Player.mk 1 "B" 3 3 0;
                          Player.mk 2 "C" 6 6 0] 1 in
  let place := Place.mk 6 None (Some effect_6_persistent) None in
  on_board g
  ∧ roster_alive g
  ∧ getPlayersInPlace place g = Ok [0; 2] g.
Proof.
  intros g place.
  assert (on_board g) as Hg
    by (apply board_game_on_board; repeat constructor; simpl; lia).
  assert (roster_alive g) as Hl.
  { intros r Hr. simpl in Hr.
    repeat (apply elem_of_cons in Hr as [->|Hr]);
      [..|by apply elem_of_nil in Hr]; vm_compute; by eexists. }
  split; [exact Hg|]. split; [exact Hl|].
  exact (getPlayersInPlace_lists_the_place place g Hg Hl).
Defined.

(** A stands on place 6 and B rolls 3: the effect of place 6 waits for
    a 2. *)
Lemma untriggered_effect_changes_nothing_witness :
  let g := board_game [] [Player.mk 0 "A" 6 6 0; Player.mk 1 "B" 3 3 0] 1 in
  let place := Place.mk 6 None (Some effect_6_persistent) None in
  call_persistent effect_6_persistent place 1 3 g = Ok ([], false) g
  ∧ (@nil Z = [] ∧ g = g).
Proof.
  intros g place. split; [reflexivity|].
  apply (untriggered_effect_changes_nothing effect_6_persistent place 1 3 g).
  reflexivity.
Defined.

(** The script for the players A and B, the draws replayed from a list. *)
Lemma main_keeps_the_board_witness :
  let run := main (λ _, [5; 5; 6; 6; 6; 6; 4; 4]) ranged_randint (λ s, s)
               (call_effect ranged_randint replay_getrandbits) call_persistent
               dumps_stats 20 6 7 ["A"; "B"] BOARD in
  die_in_range ranged_randint
  ∧ on_board (state_of run)
  ∧ ∀ e g', run = Raise e g' → e ≠ AttributeError ∧ e ≠ ZeroDivisionError.
Proof.
  intros run. split; [exact ranged_die|].
  exact (main_keeps_the_board (λ _, [5; 5; 6; 6; 6; 6; 4; 4]) ranged_randint
           replay_getrandbits (λ s, s) dumps_stats ranged_die 20 6 7
           ["A"; "B"]).
Defined.
